(** * summary.py: peer-availability estimator and channel-balance report

    A shallow embedding of [src/summary/summary.py] and the properties of
    its availability sampler ([PeerThread.run], [addpeer]), its money
    formatter ([msat_to_approx_str]) and its report ([summary]).

    Conventions of the embedding
    - Python [int] is [Z]; Python [float] (IEEE-754 binary64) is the
      rational it denotes, and every floating-point operation is the exact
      operation followed by [fl], round-to-nearest-even to 53 bits.
    - Python [str] is a list of Unicode code points ([pystr]) where glyphs
      of the drawing alphabet occur, and [string] for ASCII identifiers.
    - the global dict [peerstate] is a [gmap] threaded through the calls.
    - exceptions are the [Raise] results of the [res] monad. *)

From Stdlib Require Import ZArith QArith Qround Qabs Qpower Lia Lqa List.
From Stdlib Require Import Strings.String Strings.Ascii.
From Stdlib Require Import Uint63 PrimFloat SpecFloat FloatOps.
From stdpp Require Import gmap strings pretty.
Import ListNotations.

Local Open Scope Z_scope.

(* ===================================================================== *)
(** * Python values and primitives *)
(* ===================================================================== *)

Module Py.

(** Exceptions the modelled code can raise. *)
Inductive exn : Set := ValueError | ZeroDivisionError | KeyError.

(** Result of a computation: a value, a raised exception, or [Timeout]
    when a fuel-bounded loop ran out of fuel. *)
Inductive res (A : Type) : Type :=
| Ok (a : A)
| Raise (e : exn)
| Timeout.
Arguments Ok {A} a.
Arguments Raise {A} e.
Arguments Timeout {A}.

Definition bind {A B : Type} (k : A -> res B) (m : res A) : res B :=
  match m with
  | Ok a => k a
  | Raise e => Raise e
  | Timeout => Timeout
  end.

(** [x ← m; k] runs [m] and passes its value to [k]; an exception or a
    timeout of [m] is the result. *)
#[global] Instance res_bind : MBind res := @bind.
#[global] Instance res_ret : MRet res := @Ok.

(** [for x in l: acc = f(x, acc)], stopping at the first exception. *)
Fixpoint foldM {A S : Type} (f : A -> S -> res S) (l : list A) (s : S) : res S :=
  match l with
  | [] => Ok s
  | x :: l' => s' ← f x s; foldM f l' s'
  end.

(** [[f(x) for x in l]], stopping at the first exception. *)
Fixpoint mapM {A B : Type} (f : A -> res B) (l : list A) : res (list B) :=
  match l with
  | [] => Ok []
  | x :: l' => y ← f x; ys ← mapM f l'; Ok (y :: ys)
  end.

(** ** Floating point: binary64, round to nearest, ties to even *)

Definition pow2 (e : Z) : Q := Qpower 2 e.

(** Floor of the base-2 logarithm of a positive rational. *)
Definition flog2 (x : Q) : Z :=
  let t := Z.log2 (Qnum x) - Z.log2 (Zpos (Qden x)) in
  if Qle_bool (pow2 t) x then t else t - 1.

(** Nearest integer, ties to the even one (also Python's [round(x)]). *)
Definition rne (x : Q) : Z :=
  let f := Qfloor x in
  match Qcompare (x - inject_Z f) (1 # 2) with
  | Lt => f
  | Gt => f + 1
  | Eq => if Z.even f then f else f + 1
  end.

(** The binary64 value nearest to [x]: 53 significant bits, exponent not
    below -1022 (subnormals); overflow to infinity does not occur for the
    magnitudes of this program and is not modelled.  The result is in
    lowest terms, so equal floats are equal terms. *)
Definition fl (x : Q) : Q :=
  if Qeq_bool x 0 then 0%Q
  else
    let e := Z.max (flog2 (Qabs x)) (-1022) in
    let k := 52 - e in
    Qred (inject_Z (rne (x * pow2 k)) * pow2 (- k)).

Definition fadd (x y : Q) : Q := fl (x + y).
Definition fsub (x y : Q) : Q := fl (x - y).
Definition fmul (x y : Q) : Q := fl (x * y).
Definition fdiv (x y : Q) : Q := fl (x / y).

(** [float(n)] for an int. *)
Definition float_of_int (n : Z) : Q := fl (inject_Z n).

(** [a / b] on ints: the correctly rounded quotient, or ZeroDivisionError. *)
Definition truediv (a b : Z) : res Q :=
  if b =? 0 then Raise ZeroDivisionError
  else Ok (fl (inject_Z a / inject_Z b)).

(** [round(x, ndigits)] on an int [x]: [x] itself for [ndigits >= 0], else
    the nearest multiple of [10 ** -ndigits], ties to the even multiple. *)
Definition round_int (x ndigits : Z) : Z :=
  if 0 <=? ndigits then x
  else
    let p := 10 ^ (- ndigits) in
    let q := x / p in
    let r := x mod p in
    match 2 * r ?= p with
    | Lt => x - r
    | Gt => x - r + p
    | Eq => if Z.even q then x - r else x - r + p
    end.

(** ** Strings *)

(** A str as its code points. *)
Definition pychar := N.
Definition pystr := list pychar.

Definition of_string (s : string) : pystr :=
  map N_of_ascii (list_ascii_of_string s).

Definition space : pychar := 32%N.

(** ["{:>w}".format(s)] and ["%ws" % s]: pad on the left, never truncate. *)
Definition rjust (w : nat) (s : pystr) : pystr :=
  repeat space (w - length s) ++ s.

(** ["{:w}".format(s)] and ["%-ws" % s]: pad on the right, never truncate. *)
Definition ljust (w : nat) (s : pystr) : pystr :=
  s ++ repeat space (w - length s).

(** [c * n] for a one-character str: empty when [n <= 0]. *)
Definition times (c : pychar) (n : Z) : pystr := repeat c (Z.to_nat n).

(** [needle in hay] on strs: contiguous substring. *)
Fixpoint contains (needle hay : string) : bool :=
  String.prefix needle hay ||
  match hay with
  | EmptyString => false
  | String _ hay' => contains needle hay'
  end.

(** [min(l, key=len)]: the first element of least length. *)
Fixpoint min_by_len (best : string) (l : list string) : string :=
  match l with
  | [] => best
  | s :: l' =>
      if (String.length s <? String.length best)%nat
      then min_by_len s l' else min_by_len best l'
  end.

(** Library functions of the interpreter that the program calls and that
    are not part of the repository: [int(floor(log10(x)))] for [x > 0],
    the ["%g"] conversion of a float and the ["{:4.0%}"] conversion of a
    float.  The development is parametric in them. *)
Class Lib : Type := {
  log10_floor : Z -> Z;
  format_g : Q -> string;
  format_pct : Q -> pystr
}.

End Py.
Import Py.

(* ===================================================================== *)
(** * The drawing alphabet *)
(* ===================================================================== *)

(** [Charset]: seven one-character strs. *)
Record Charset : Set := {
  double_left : pychar;
  left : pychar;
  bar : pychar;
  mid : pychar;
  right : pychar;
  double_right : pychar;
  empty : pychar
}.

(** [draw] when [have_utf8]: '╟', '├', '─', '┼', '┤', '╢', '║'. *)
Definition draw_utf8 : Charset :=
  {| double_left := 0x255F; left := 0x251C; bar := 0x2500; mid := 0x253C;
     right := 0x2524; double_right := 0x2562; empty := 0x2551 |}%N.

(** [draw] otherwise: '#', '[', '-', '/', ']', '#', '|'. *)
Definition draw_ascii : Charset :=
  {| double_left := 35; left := 91; bar := 45; mid := 47;
     right := 93; double_right := 35; empty := 124 |}%N.

(* ===================================================================== *)
(** * Availability estimator: [peerstate], [addpeer], [PeerThread.run] *)
(* ===================================================================== *)

(** One channel of a peer, as [listpeers] reports it. *)
Record Channel : Set := {
  c_state : string;
  c_short_channel_id : string;
  c_our_reserve_msat : Z;
  c_to_us_msat : Z;
  c_total_msat : Z;
  c_their_reserve_msat : Z;
  c_private : bool
}.

(** One entry of [listpeers()['peers']]. *)
Record Peer : Set := {
  p_id : string;
  p_connected : bool;
  p_channels : list Channel
}.

(** The dict stored per peer id in [peerstate]; [last_seen] is a
    timestamp or None. *)
Record PeerState : Set := {
  connected : bool;
  last_seen : option Z;
  availability : Q
}.

(** [addpeer(p)]: an absent id gets a fresh entry seeded from the current
    connection state; a present one is left alone. *)
Definition addpeer (now : Z) (p : Peer) (peerstate : gmap string PeerState)
  : gmap string PeerState :=
  match peerstate !! p_id p with
  | Some _ => peerstate
  | None =>
      <[p_id p := {| connected := p_connected p;
                     last_seen := if p_connected p then Some now else None;
                     availability := if p_connected p then 1%Q else 0%Q |}]>
        peerstate
  end.

Definition interval : Z := 5 * 60.
Definition window : Z := 3 * 24 * 60 * 60.

Definition leadwin (count : Z) : Z :=
  Z.max (Z.min window (count * interval)) interval.

(** [samples = leadwin / interval]; both are positive ints. *)
Definition samples (count : Z) : Q :=
  fl (inject_Z (leadwin count) / inject_Z interval).

Definition alpha (count : Z) : Q := fdiv 1 (samples count).
Definition beta (count : Z) : Q := fsub 1 (alpha count).

(** The new availability: [1.0 * alpha + a * beta] for a connected peer,
    [0.0 * alpha + a * beta] otherwise. *)
Definition smooth (count : Z) (conn : bool) (a : Q) : Q :=
  fadd (fmul (if conn then 1 else 0) (alpha count)) (fmul a (beta count)).

(** The body of [for p in peers['peers']]. *)
Definition update_peer (count now : Z) (p : Peer)
  (peerstate : gmap string PeerState) : gmap string PeerState :=
  let peerstate := addpeer now p peerstate in
  alter (fun s =>
           if p_connected p
           then {| connected := true;
                   last_seen := Some now;
                   availability := smooth count true (availability s) |}
           else {| connected := false;
                   last_seen := last_seen s;
                   availability := smooth count false (availability s) |})
        (p_id p) peerstate.

(** State of the sampler thread: the loop counter and the global dict. *)
Record Sampler : Set := {
  count : Z;
  peerstate : gmap string PeerState
}.

(** One iteration of the [while True] loop of [PeerThread.run].
    [listpeers] is the answer of [plugin.rpc.listpeers()], [None] when the
    call raised: the exception is logged and the dict is left alone, the
    counter has been incremented all the same. *)
Definition PeerThread_tick (now : Z) (listpeers : option (list Peer))
  (s : Sampler) : Sampler :=
  let count := count s + 1 in
  {| count := count;
     peerstate :=
       match listpeers with
       | Some peers =>
           fold_left (fun st p => update_peer count now p st) peers (peerstate s)
       | None => peerstate s
       end |}.

(** [PeerThread.run] up to a number of iterations, one [listpeers] answer
    and clock reading per iteration. *)
Definition PeerThread_run (ticks : list (Z * option (list Peer))) (s : Sampler)
  : Sampler :=
  fold_left (fun s t => PeerThread_tick (fst t) (snd t) s) ticks s.

(** The sampler as the thread starts it. *)
Definition sampler_init : Sampler := {| count := 0; peerstate := ∅ |}.

(** ** The estimator of the specification's data model

    Not taken from the source: the PeerAvailability record of the
    specification carries a [sampleCount] that is said to drive the warm-up
    weighting.  This second estimator follows those words, one counter per
    entry, and is only used to compare the sampler of the source with it. *)
Record PeerAvailability : Set := {
  pa_connected : bool;
  pa_lastSeen : option Z;
  pa_availability : Q;
  pa_sampleCount : Z
}.

Definition spec_update_peer (now : Z) (p : Peer)
  (st : gmap string PeerAvailability) : gmap string PeerAvailability :=
  let st :=
    match st !! p_id p with
    | Some _ => st
    | None =>
        <[p_id p := {| pa_connected := p_connected p;
                       pa_lastSeen := if p_connected p then Some now else None;
                       pa_availability := if p_connected p then 1%Q else 0%Q;
                       pa_sampleCount := 0 |}]> st
    end in
  alter (fun s =>
           let n := pa_sampleCount s + 1 in
           {| pa_connected := p_connected p;
              pa_lastSeen := if p_connected p then Some now else pa_lastSeen s;
              pa_availability := smooth n (p_connected p) (pa_availability s);
              pa_sampleCount := n |})
        (p_id p) st.

Definition spec_tick (now : Z) (listpeers : option (list Peer))
  (st : gmap string PeerAvailability) : gmap string PeerAvailability :=
  match listpeers with
  | Some peers => fold_left (fun st p => spec_update_peer now p st) peers st
  | None => st
  end.

Definition spec_run (ticks : list (Z * option (list Peer)))
  (st : gmap string PeerAvailability) : gmap string PeerAvailability :=
  fold_left (fun st t => spec_tick (fst t) (snd t) st) ticks st.

(* ===================================================================== *)
(** * Money formatter: [msat_to_approx_str], [append_header] *)
(* ===================================================================== *)

(** [Millisatoshi(v)]: the constructor of pyln.client refuses a negative
    amount; [a - b] on two of them builds [Millisatoshi(int(a) - int(b))]. *)
Definition Millisatoshi (v : Z) : res Z :=
  if v <? 0 then Raise ValueError else Ok v.

Definition msat_sub (a b : Z) : res Z := Millisatoshi (a - b).

Section Formatter.
Context `{Lib}.

(** [round_to_n = lambda x, n: round(x, -int(floor(log10(x))) + (n - 1))];
    [log10] raises ValueError (math domain error) unless [x > 0]. *)
Definition round_to_n (x n : Z) : res Z :=
  if x <=? 0 then Raise ValueError
  else Ok (round_int x (- log10_floor x + (n - 1))).

(** The three candidate renderings of a rounded amount. *)
Definition amounts_str (amount_rounded : Z) : list string :=
  let sat := fl (inject_Z amount_rounded / inject_Z 1000) in
  [ (format_g (fdiv sat (float_of_int (10 ^ 8))) ++ "btc")%string;
    (format_g sat ++ "sat")%string;
    (format_g (float_of_int amount_rounded) ++ "msat")%string ].

(** [min(amounts_str, key=len)]. *)
Definition test_result (amount_rounded : Z) : string :=
  match amounts_str amount_rounded with
  | [] => ""%string
  | s :: l => min_by_len s l
  end.

(** [not result] for a value that is None or a str. *)
Definition falsy (result : option string) : bool :=
  match result with
  | None => true
  | Some s => bool_decide (s = ""%string)
  end.

Definition len_le (t : string) (result : option string) : bool :=
  match result with
  | None => false
  | Some r => (String.length t <=? String.length r)%nat
  end.

(** The [while True] loop; [fuel] bounds the number of iterations. *)
Fixpoint msat_to_approx_str_loop (fuel : nat) (msat digits : Z)
  (result : option string) : res (option string) :=
  match fuel with
  | O => Timeout
  | S fuel' =>
      amount_rounded ← round_to_n msat digits;
      let t := test_result amount_rounded in
      if bool_decide (Some t = result) then Ok result
      else if falsy result || len_le t result
      then msat_to_approx_str_loop fuel' msat (digits + 1) (Some t)
      else Ok result
  end.

(** Iterations that are always enough (see [msat_to_approx_str_fuel]). *)
Definition enough_fuel (msat digits : Z) : nat :=
  Z.to_nat (log10_floor msat + 1 - digits) + 2.

Definition msat_to_approx_str (msat digits : Z) : res (option string) :=
  msat_to_approx_str_loop (enough_fuel msat digits) msat digits None.

(** ["%s" % v] for a value that is None or a str. *)
Definition str_of (v : option string) : pystr :=
  match v with
  | Some s => of_string s
  | None => of_string "None"
  end.

Definition append_header (draw : Charset) (table : list pystr) (max_msat : Z)
  : res (list pystr) :=
  m ← Millisatoshi max_msat;
  short ← msat_to_approx_str m 3;
  let short_str := str_of short in
  Ok (table ++
      [ [left draw] ++ ljust 13 short_str ++ of_string "OUT/OURS "
        ++ [mid draw] ++ of_string " IN/THEIRS" ++ rjust 12 short_str
        ++ [right draw] ++ of_string " SCID           FLAG AVAIL ALIAS" ]).

End Formatter.

(* ===================================================================== *)
(** * The report: [summary] *)
(* ===================================================================== *)

(** The [exclude] argument: the default [''] and any other str, or a list
    of scids as the method's description asks for. *)
Inductive Exclude : Set :=
| ExcludeStr (s : string)
| ExcludeList (l : list string).

(** [c['short_channel_id'] in exclude]. *)
Definition is_excluded (scid : string) (exclude : Exclude) : bool :=
  match exclude with
  | ExcludeStr s => contains scid s
  | ExcludeList l => bool_decide (scid ∈ l)
  end.

(** The tuple appended to [chans]. *)
Record ChanRec : Set := {
  ch_total : Z;
  ch_to_us : Z;
  ch_to_them : Z;
  ch_peer : string;
  ch_private : bool;
  ch_connected : bool;
  ch_scid : string;
  ch_availability : Q
}.

(** What the loop over the peers accumulates. *)
Record Totals : Set := {
  num_channels : Z;
  num_connected : Z;
  num_gossipers : Z;
  avail_out : Z;
  avail_in : Z;
  chans : list ChanRec
}.

Definition totals_init : Totals :=
  {| num_channels := 0; num_connected := 0; num_gossipers := 0;
     avail_out := 0; avail_in := 0; chans := [] |}.

(** The body of [for c in p['channels']]; the boolean is
    [active_channel]. *)
Definition channel_step (exclude : Exclude) (peerstate : gmap string PeerState)
  (p : Peer) (c : Channel) (s : bool * Totals) : res (bool * Totals) :=
  let '(active_channel, t) := s in
  if negb (String.eqb (c_state c) "CHANNELD_NORMAL") then Ok (active_channel, t)
  else if is_excluded (c_short_channel_id c) exclude then Ok (true, t)
  else
    to_us ← (if c_our_reserve_msat c <? c_to_us_msat c
             then msat_sub (c_to_us_msat c) (c_our_reserve_msat c)
             else Millisatoshi 0);
    to_them ← msat_sub (c_total_msat c) (c_to_us_msat c);
    to_them ← (if c_their_reserve_msat c <? to_them
               then msat_sub to_them (c_their_reserve_msat c)
               else Millisatoshi 0);
    a ← match peerstate !! p_id p with
        | Some s => Ok (availability s)
        | None => Raise KeyError
        end;
    Ok (true,
        {| num_channels := num_channels t + 1;
           num_connected :=
             if p_connected p then num_connected t + 1 else num_connected t;
           num_gossipers := num_gossipers t;
           avail_out := avail_out t + to_us;
           avail_in := avail_in t + to_them;
           chans := chans t ++
             [ {| ch_total := c_total_msat c; ch_to_us := to_us;
                  ch_to_them := to_them; ch_peer := p_id p;
                  ch_private := c_private c; ch_connected := p_connected p;
                  ch_scid := c_short_channel_id c; ch_availability := a |} ]
        |}).

(** The body of [for p in peers['peers']]. *)
Definition peer_step (exclude : Exclude) (now : Z) (p : Peer)
  (s : gmap string PeerState * Totals) : res (gmap string PeerState * Totals) :=
  let '(peerstate, t) := s in
  let peerstate := addpeer now p peerstate in
  r ← foldM (channel_step exclude peerstate p) (p_channels p) (false, t);
  let '(active_channel, t) := r in
  Ok (peerstate,
      if negb active_channel && p_connected p
      then {| num_channels := num_channels t;
              num_connected := num_connected t;
              num_gossipers := num_gossipers t + 1;
              avail_out := avail_out t;
              avail_in := avail_in t;
              chans := chans t |}
      else t).

(** The loop [for p in peers['peers']] from the empty totals. *)
Definition collect (exclude : Exclude) (now : Z) (peers : list Peer)
  (peerstate : gmap string PeerState) : res (gmap string PeerState * Totals) :=
  foldM (peer_step exclude now) peers (peerstate, totals_init).

(** [int(round(int(amount) / biggest * 23))]. *)
Definition bar_length (amount biggest : Z) : res Z :=
  q ← truediv amount biggest;
  Ok (rne (fmul q 23)).

(** The 47 characters of the line graph as [(left, mid, right)]. *)
Definition line_graph (draw : Charset) (our_len their_len : Z)
  : pystr * pychar * pystr :=
  let m := mid draw in
  let '(l, m) :=
    if our_len =? 0 then (rjust 23 [], double_left draw)
    else (rjust 23 ([left draw] ++ times (bar draw) (our_len - 1)), m) in
  let '(r, m) :=
    if their_len =? 0
    then (ljust 23 [], if our_len =? 0 then empty draw else double_right draw)
    else (ljust 23 (times (bar draw) (their_len - 1) ++ [right draw]), m) in
  (l, m, r).

(** [max(max(int(c[1]), int(c[2])) for c in chans)] for a non-empty list. *)
Definition biggest_of (c : ChanRec) (cs : list ChanRec) : Z :=
  fold_left (fun m c => Z.max m (Z.max (ch_to_us c) (ch_to_them c))) cs
            (Z.max (ch_to_us c) (ch_to_them c)).

(** The report, as far as it is modelled: the counters and the amounts (in
    msat, before [to_btc_str] and the fiat annotation) and the table. *)
Record Reply : Set := {
  r_num_utxos : Z;
  r_utxo_amount : Z;
  r_avail_out : Z;
  r_avail_in : Z;
  r_num_channels : Z;
  r_num_connected : Z;
  r_num_gossipers : Z;
  r_channels : option (list pystr)
}.

Section Report.
Context `{Lib}.
(** The alphabet selected at start-up and the answers of
    [plugin.rpc.listnodes(id)['nodes']]: per node its alias, if any. *)
Variable draw : Charset.
Variable listnodes : string -> list (option pystr).

(** One line of the table, the body of [for c in chans]. *)
Definition channel_line (biggest : Z) (c : ChanRec) : res pystr :=
  our_len ← bar_length (ch_to_us c) biggest;
  their_len ← bar_length (ch_to_them c) biggest;
  let '(l, m, r) := line_graph draw our_len their_len in
  let s := l ++ [m] ++ r in
  let s := s ++ [space] ++ ljust 14 (of_string (ch_scid c)) ++ [space] in
  let extra :=
    of_string (if ch_private c then "P" else "_")
    ++ of_string (if negb (ch_connected c) then "O" else "_") in
  let s := s ++ of_string "[" ++ extra ++ of_string "] " in
  let s := s ++ format_pct (ch_availability c) ++ of_string "  " in
  Ok (s ++ match listnodes (ch_peer c) with
           | Some alias :: _ => alias
           | _ => of_string (String.substring 0 32 (ch_peer c))
           end).

(** [if chans != []: ...]: the table, or nothing. *)
Definition render (chans : list ChanRec) : res (option (list pystr)) :=
  match chans with
  | [] => Ok None
  | c :: cs =>
      let biggest := biggest_of c cs in
      table ← append_header draw [[10%N]] biggest;
      lines ← mapM (channel_line biggest) chans;
      Ok (Some (table ++ lines))
  end.

(** [summary(plugin, exclude)]: [funds] are the [(amount_msat, status)] of
    [listfunds()['outputs']], [peers] is [listpeers()['peers']]. The
    result carries the global dict as the call leaves it. *)
Definition summary (now : Z) (funds : list (Z * string)) (peers : list Peer)
  (exclude : Exclude) (peerstate : gmap string PeerState)
  : res (Reply * gmap string PeerState) :=
  let utxos :=
    map fst (List.filter (fun f => String.eqb (snd f) "confirmed") funds) in
  utxo_amount ← Millisatoshi (fold_right Z.add 0 utxos);
  r ← collect exclude now peers peerstate;
  let '(peerstate, t) := r in
  channels ← render (chans t);
  Ok ({| r_num_utxos := Z.of_nat (length utxos);
         r_utxo_amount := utxo_amount;
         r_avail_out := avail_out t;
         r_avail_in := avail_in t;
         r_num_channels := num_channels t;
         r_num_connected := num_connected t;
         r_num_gossipers := num_gossipers t;
         r_channels := channels |},
      peerstate).

End Report.

(* ===================================================================== *)
(** * A concrete interpreter library *)
(* ===================================================================== *)

(** Modelled from the documentation of the interpreter, not from the
    repository: decimal conversions of CPython, used to run the model on
    concrete inputs.  The theorems below hold for any [Lib]. *)

(** Number of decimal digits of a positive int. *)
Definition ndigits (n : Z) : Z := Z.of_nat (String.length (pretty n)).

(** Floor of the base-10 logarithm of a positive rational. *)
Definition flog10 (v : Q) : Z :=
  let t := ndigits (Qnum v) - ndigits (Zpos (Qden v)) in
  if Qle_bool (Qpower 10 t) v then t else t - 1.

(** A decimal digit string without its trailing zeros. *)
Fixpoint strip_zeros_rev (l : list ascii) : list ascii :=
  match l with
  | "0"%char :: l' => strip_zeros_rev l'
  | _ => l
  end.

Definition strip_zeros (s : string) : string :=
  string_of_list_ascii
    (rev (strip_zeros_rev (rev (list_ascii_of_string s)))).

Definition with_point (int_part frac : string) : string :=
  if bool_decide (frac = ""%string) then int_part
  else (int_part ++ "." ++ frac)%string.

(** ["%g" % v] for [v >= 0]: six significant digits, trailing zeros
    removed, exponent form when the exponent is below -4 or at least 6. *)
Definition format_g_dec (v : Q) : string :=
  if Qeq_bool v 0 then "0"%string
  else
    let x := flog10 v in
    let m := rne (v / Qpower 10 (x - 5)) in
    let '(m, x) := if m =? 10 ^ 6 then (10 ^ 5, x + 1) else (m, x) in
    let ds := pretty m in
    if (x <? -4) || (6 <=? x)
    then
      let e := pretty (Z.abs x) in
      let sign := if x <? 0 then "-"%string else "+"%string in
      let pad := if Z.abs x <? 10 then "0"%string else ""%string in
      (with_point (String.substring 0 1 ds)
                  (strip_zeros (String.substring 1 5 ds))
       ++ "e" ++ sign ++ pad ++ e)%string
    else if 0 <=? x
    then with_point (String.substring 0 (Z.to_nat (x + 1)) ds)
                    (strip_zeros (String.substring (Z.to_nat (x + 1)) 6 ds))
    else ("0." ++ string_of_list_ascii (repeat "0"%char (Z.to_nat (- x - 1)))
          ++ strip_zeros ds)%string.

(** ["{:4.0%}".format(v)] for [v >= 0]: [v * 100] to the nearest integer,
    a percent sign, right-justified in four columns. *)
Definition format_pct_dec (v : Q) : pystr :=
  rjust 4 (of_string (pretty (rne (fmul v 100)) ++ "%")).

(** [int(floor(log10(x)))] where the logarithm is exact: the number of
    decimal digits less one.  The binary64 [log10] of the interpreter gives
    one more for some amounts just below a power of ten, from [10^15] on;
    this library is only run on amounts far below. *)
Definition cpython : Lib :=
  {| log10_floor := fun x => ndigits x - 1;
     format_g := format_g_dec;
     format_pct := format_pct_dec |}.

(* ===================================================================== *)
(** * The floating-point model against the machine's binary64 *)
(* ===================================================================== *)

(** The rational a primitive float of the kernel denotes, in lowest terms;
    nothing for an infinity or a NaN. *)
Definition Q_of_float (f : float) : option Q :=
  match Prim2SF f with
  | S754_zero _ => Some 0%Q
  | S754_finite s m e =>
      Some (Qred (inject_Z (if s then Z.neg m else Z.pos m) * pow2 e))
  | _ => None
  end.

Definition float_of_Z (n : Z) : float := PrimFloat.of_uint63 (Uint63.of_Z n).

Definition same_float (f : float) (q : Q) : bool :=
  match Q_of_float f with
  | Some x => (Qnum x =? Qnum q) && Pos.eqb (Qden x) (Qden q)
  | None => false
  end.

(** The sampler's arithmetic of iteration [k], on primitive floats and in
    the model. *)
Definition sampler_agrees (k : Z) : bool :=
  let s := (float_of_Z (leadwin k) / float_of_Z interval)%float in
  let a := (1 / s)%float in
  let b := (1 - a)%float in
  same_float s (samples k)
  && same_float a (alpha k)
  && same_float b (beta k)
  && same_float (1 * a + 1 * b)%float (smooth k true 1)
  && same_float (1 * a + a * b)%float (smooth k true (alpha k))
  && same_float (0 * a + b * b)%float (smooth k false (beta k)).

(** The bar arithmetic [x / 1000 * 23], on primitive floats and in the
    model. *)
Definition bar_agrees (x : Z) : bool :=
  same_float (float_of_Z x / float_of_Z 1000 * 23)%float
             (fmul (fl (inject_Z x / inject_Z 1000)) 23).

(* ===================================================================== *)
(** * Notions used in the statements *)
(* ===================================================================== *)

(** The closed unit interval. *)
Definition in_unit (a : Q) : Prop := (0 <= a)%Q /\ (a <= 1)%Q.

(** What happens to [peerstate] during the life of the process: sampler
    iterations and report requests, in any order.  A report request calls
    [addpeer] on the peers it is given (on a prefix of them when it
    raises). *)
Inductive Event : Set :=
| EvTick (now : Z) (listpeers : option (list Peer))
| EvSummary (now : Z) (peers : list Peer).

Definition step (e : Event) (s : Sampler) : Sampler :=
  match e with
  | EvTick now listpeers => PeerThread_tick now listpeers s
  | EvSummary now peers =>
      {| count := count s;
         peerstate := fold_left (fun st p => addpeer now p st) peers (peerstate s) |}
  end.

Definition process (events : list Event) (s : Sampler) : Sampler :=
  fold_left (fun s e => step e s) events s.

(** The last entry of a [listpeers] answer that carries a given id. *)
Definition last_report (pid : string) (peers : list Peer) : option Peer :=
  fold_left (fun o p => if bool_decide (p_id p = pid) then Some p else o)
            peers None.

(** The value [peerstate[pid]['availability']] has once [addpeer(p)] ran. *)
Definition prior (p : Peer) (st : gmap string PeerState) : Q :=
  match st !! p_id p with
  | Some s => availability s
  | None => if p_connected p then 1%Q else 0%Q
  end.

(** A channel that reaches the totals and the table. *)
Definition eligible (exclude : Exclude) (c : Channel) : bool :=
  String.eqb (c_state c) "CHANNELD_NORMAL"
  && negb (is_excluded (c_short_channel_id c) exclude).

(** Number of eligible channels whose peer is connected. *)
Definition connected_channels (exclude : Exclude) (peers : list Peer) : Z :=
  fold_right Z.add 0
    (map (fun p => if p_connected p
                   then Z.of_nat (length (List.filter (eligible exclude) (p_channels p)))
                   else 0) peers).

(** Number of peers the daemon reports as connected. *)
Definition connected_peers (peers : list Peer) : Z :=
  Z.of_nat (length (List.filter p_connected peers)).

Definition sum_of (f : ChanRec -> Z) (l : list ChanRec) : Z :=
  fold_right Z.add 0 (map f l).

Definition count_of (f : ChanRec -> bool) (l : list ChanRec) : Z :=
  Z.of_nat (length (List.filter f l)).

(** The records of the channels with a given scid. *)
Definition with_scid (s : string) (l : list ChanRec) : list ChanRec :=
  List.filter (fun r => bool_decide (ch_scid r = s)) l.

Definition without_scid (s : string) (l : list ChanRec) : list ChanRec :=
  List.filter (fun r => negb (bool_decide (ch_scid r = s))) l.

(** The entries of [peerstate] all hold an availability in the unit
    interval. *)
Definition wf (st : gmap string PeerState) : Prop :=
  forall pid s, st !! pid = Some s -> in_unit (availability s).

(** The smoothing constants of one iteration are sound. *)
Definition constants_ok (k : Z) : bool :=
  Qle_bool 0 (alpha k) && Qle_bool 0 (beta k) && Qle_bool (beta k) 1
  && Qle_bool (fadd (fmul 1 (alpha k)) (fl (beta k))) 1.

(** Nine hundred iterations that see nobody, then one that sees a new peer
    "A" connected and one that sees it disconnected. *)
Definition late_peer_ticks : list (Z * option (list Peer)) :=
  repeat (0, Some []) 900 ++
  [ (270000, Some [ {| p_id := "A"; p_connected := true; p_channels := [] |} ]);
    (270300, Some [ {| p_id := "A"; p_connected := false; p_channels := [] |} ]) ].

(** The tuple [channel_step] appends for a channel it does not skip. *)
Definition chan_rec (peerstate : gmap string PeerState) (p : Peer) (c : Channel)
  : res ChanRec :=
  to_us ← (if c_our_reserve_msat c <? c_to_us_msat c
           then msat_sub (c_to_us_msat c) (c_our_reserve_msat c)
           else Millisatoshi 0);
  to_them ← msat_sub (c_total_msat c) (c_to_us_msat c);
  to_them ← (if c_their_reserve_msat c <? to_them
             then msat_sub to_them (c_their_reserve_msat c)
             else Millisatoshi 0);
  a ← match peerstate !! p_id p with
      | Some s => Ok (availability s)
      | None => Raise KeyError
      end;
  Ok {| ch_total := c_total_msat c; ch_to_us := to_us;
        ch_to_them := to_them; ch_peer := p_id p;
        ch_private := c_private c; ch_connected := p_connected p;
        ch_scid := c_short_channel_id c; ch_availability := a |}.

(** The totals once a tuple is counted. *)
Definition push (t : Totals) (r : ChanRec) : Totals :=
  {| num_channels := num_channels t + 1;
     num_connected :=
       if ch_connected r then num_connected t + 1 else num_connected t;
     num_gossipers := num_gossipers t;
     avail_out := avail_out t + ch_to_us r;
     avail_in := avail_in t + ch_to_them r;
     chans := chans t ++ [r] |}.

(** A channel in the fully negotiated operating state. *)
Definition normal (c : Channel) : bool :=
  String.eqb (c_state c) "CHANNELD_NORMAL".

(** 1 for a gossip-only peer: connected, no channel in the normal state. *)
Definition gossip (p : Peer) : Z :=
  if negb (existsb normal (p_channels p)) && p_connected p then 1 else 0.

Definition gossipers_of (peers : list Peer) : Z :=
  fold_right Z.add 0 (map gossip peers).

(** The totals with more tuples and gossip-only peers counted. *)
Definition extend (t : Totals) (recs : list ChanRec) (g : Z) : Totals :=
  {| num_channels := num_channels t + Z.of_nat (length recs);
     num_connected := num_connected t + count_of ch_connected recs;
     num_gossipers := num_gossipers t + g;
     avail_out := avail_out t + sum_of ch_to_us recs;
     avail_in := avail_in t + sum_of ch_to_them recs;
     chans := chans t ++ recs |}.

(** The tuples of the eligible channels, peer after peer, each peer looked
    up in the dict as [addpeer] left it. *)
Fixpoint records (exclude : Exclude) (now : Z) (peers : list Peer)
  (peerstate : gmap string PeerState) : res (list ChanRec) :=
  match peers with
  | [] => Ok []
  | p :: peers' =>
      let peerstate := addpeer now p peerstate in
      rs ← mapM (chan_rec peerstate p)
                (List.filter (eligible exclude) (p_channels p));
      rest ← records exclude now peers' peerstate;
      Ok (rs ++ rest)
  end.

(** Sample data: a connected peer with two operating channels. *)
Definition chan_1 : Channel :=
  {| c_state := "CHANNELD_NORMAL"; c_short_channel_id := "1x1x1";
     c_our_reserve_msat := 1000; c_to_us_msat := 500000;
     c_total_msat := 1000000; c_their_reserve_msat := 1000;
     c_private := false |}.

Definition chan_2 : Channel :=
  {| c_state := "CHANNELD_NORMAL"; c_short_channel_id := "2x2x2";
     c_our_reserve_msat := 1000; c_to_us_msat := 200000;
     c_total_msat := 1000000; c_their_reserve_msat := 1000;
     c_private := true |}.

Definition peer_two_channels : Peer :=
  {| p_id := "02aa"; p_connected := true; p_channels := [chan_1; chan_2] |}.

(** Sample data: an operating channel whose two sides hold exactly their
    reserves, so that nothing is available on either side. *)
Definition chan_reserved : Channel :=
  {| c_state := "CHANNELD_NORMAL"; c_short_channel_id := "3x3x3";
     c_our_reserve_msat := 10000; c_to_us_msat := 10000;
     c_total_msat := 20000; c_their_reserve_msat := 10000;
     c_private := false |}.

Definition peer_reserved : Peer :=
  {| p_id := "03bb"; p_connected := true; p_channels := [chan_reserved] |}.

(** Sample data: the tuple of a channel with nothing on our side and 1000
    msat on theirs. *)
Definition rec_all_theirs : ChanRec :=
  {| ch_total := 1000; ch_to_us := 0; ch_to_them := 1000; ch_peer := "02aa";
     ch_private := false; ch_connected := true; ch_scid := "1x1x1";
     ch_availability := 1 |}.

(* ===================================================================== *)
(** * Start-up: the advertised address of [init] *)
(* ===================================================================== *)

(** One entry of [getinfo()['address']]. *)
Record Address : Set := {
  a_type : string;
  a_address : string;
  a_port : Z
}.

Definition is_ipv4 (a : Address) : bool := String.eqb (a_type a) "ipv4".

(** The loop of [init] over [info['address']]: prefer IPv4, otherwise take
    any. *)
Definition best_address (addresses : list Address) : option Address :=
  fold_left (fun best a =>
               match best with
               | None => Some a
               | Some b => if is_ipv4 a && negb (is_ipv4 b) then Some a else best
               end)
            addresses None.

(** [plugin.my_address] as [init] leaves it: [id@address], with [:port]
    unless the port is 9735; None without an address. *)
Definition my_address (id : string) (addresses : list Address) : option string :=
  match best_address addresses with
  | Some b =>
      let port :=
        if a_port b =? 9735 then ""%string
        else (":" ++ pretty (a_port b))%string in
      Some (id ++ "@" ++ a_address b ++ port)%string
  | None => None
  end.

(** The unit of the last digit [round_to_n] keeps. *)
Definition last_digit_unit `{Lib} (x n : Z) : Z :=
  10 ^ Z.max 0 (log10_floor x + 1 - n).

(* ===================================================================== *)
(** * Further notions used in the statements *)
(* ===================================================================== *)

(** The peer entries an event hands to the sampler or to [addpeer]. *)
Definition reports (e : Event) : list Peer :=
  match e with
  | EvTick _ (Some peers) => peers
  | EvTick _ None => []
  | EvSummary _ peers => peers
  end.

(** Every entry for [pid] in [events] reports the connection state [b]. *)
Definition reported_as (pid : string) (b : bool) (events : list Event) : Prop :=
  Forall (fun e => Forall (fun p => p_id p = pid -> p_connected p = b) (reports e))
         events.

(** A rational that is a binary64 value. *)
Definition is_float (a : Q) : Prop := fl a = a.

(** A connected sample leaves 1.0 at 1.0 with the constants of iteration
    [k]. *)
Definition stays_one (k : Z) : bool :=
  match smooth k true 1 with
  | (n # d)%Q => (n =? 1) && Pos.eqb d 1
  end.

(** Every entry for [pid] holds the sample [b] exactly. *)
Definition steady (pid : string) (b : bool) (st : gmap string PeerState) : Prop :=
  forall e, st !! pid = Some e -> availability e = (if b then 1 else 0)%Q.

(** Every stored availability is a binary64 value. *)
Definition float_state (st : gmap string PeerState) : Prop :=
  forall pid e, st !! pid = Some e -> is_float (availability e).

(** What a channel leaves available on our side and on theirs once the
    reserves are set aside, never below zero. *)
Definition owned_available (c : Channel) : Z :=
  Z.max 0 (c_to_us_msat c - c_our_reserve_msat c).

Definition counterparty_available (c : Channel) : Z :=
  Z.max 0 (c_total_msat c - c_to_us_msat c - c_their_reserve_msat c).

(** The channels that reach the totals, in the order of the answer. *)
Definition eligible_channels (exclude : Exclude) (peers : list Peer)
  : list Channel :=
  flat_map (fun p => List.filter (eligible exclude) (p_channels p)) peers.

(** The channels in the normal state, in the order of the answer. *)
Definition normal_channels (peers : list Peer) : list Channel :=
  flat_map (fun p => List.filter normal (p_channels p)) peers.

(** Those of them whose scid does not occur in the str [s]. *)
Definition kept_channels (s : string) (peers : list Peer) : list Channel :=
  List.filter (fun c => negb (contains (c_short_channel_id c) s))
              (normal_channels peers).

(** A channel the daemon reports with more on our side than in total. *)
Definition overdrawn (c : Channel) : bool := c_total_msat c <? c_to_us_msat c.

(** A peer without its channels that are not in the normal state. *)
Definition only_normal (p : Peer) : Peer :=
  {| p_id := p_id p; p_connected := p_connected p;
     p_channels := List.filter normal (p_channels p) |}.

Definition confirmed (f : Z * string) : bool := String.eqb (snd f) "confirmed".

(** The header [append_header] appends, for a scale hint [short_str]. *)
Definition header_line (draw : Charset) (short_str : pystr) : pystr :=
  [left draw] ++ ljust 13 short_str ++ of_string "OUT/OURS "
  ++ [mid draw] ++ of_string " IN/THEIRS" ++ rjust 12 short_str
  ++ [right draw] ++ of_string " SCID           FLAG AVAIL ALIAS".

(* ===================================================================== *)
(** * Facts about the floating-point model *)
(* ===================================================================== *)

Section FloatFacts.
Local Open Scope Q_scope.

Lemma pow2_pos e : 0 < pow2 e.
Proof. apply Qpower_0_lt. reflexivity. Qed.

Lemma pow2_add a b : pow2 (a + b) == pow2 a * pow2 b.
Proof. apply Qpower_plus. discriminate. Qed.

Lemma pow2_le a b : (a <= b)%Z -> pow2 a <= pow2 b.
Proof. intros. apply Qpower_le_compat_l; [assumption | discriminate]. Qed.

Lemma pow2_lt_inv a b : pow2 a < pow2 b -> (a < b)%Z.
Proof. intros. apply Qpower_lt_compat_l_inv with (q := 2); [assumption | reflexivity]. Qed.

Lemma pow2_inject e : (0 <= e)%Z -> pow2 e == inject_Z (2 ^ e).
Proof. intros. symmetry. apply (Zpower_Qpower 2 e). assumption. Qed.

Lemma Z_log2_pow2 n :
  (0 < n)%Z -> pow2 (Z.log2 n) <= inject_Z n /\ inject_Z n < pow2 (Z.log2 n + 1).
Proof.
  intros Hn. destruct (Z.log2_spec n Hn) as [Hl Hu].
  pose proof (Z.log2_nonneg n) as H0.
  rewrite !pow2_inject by lia. split.
  - rewrite <- Zle_Qle. exact Hl.
  - rewrite <- Zlt_Qlt. replace (Z.log2 n + 1)%Z with (Z.succ (Z.log2 n)) by lia. exact Hu.
Qed.

Lemma Q_as_quotient x : x * inject_Z (Zpos (Qden x)) == inject_Z (Qnum x).
Proof.
  destruct x as [n d]. unfold Qeq, Qmult, inject_Z. simpl. rewrite Pos.mul_1_r, Z.mul_1_r. reflexivity.
Qed.

Lemma flog2_spec x :
  0 < x -> pow2 (flog2 x) <= x /\ x < pow2 (flog2 x + 1).
Proof.
  intros Hx.
  assert (Hn : (0 < Qnum x)%Z).
  { destruct x as [n d]. unfold Qlt in Hx. simpl in *. lia. }
  assert (Hd : 0 < inject_Z (Zpos (Qden x))) by reflexivity.
  destruct (Z_log2_pow2 (Qnum x) Hn) as [Hnl Hnu].
  destruct (Z_log2_pow2 (Zpos (Qden x)) eq_refl) as [Hdl Hdu].
  set (a := Z.log2 (Qnum x)) in *. set (b := Z.log2 (Zpos (Qden x))) in *.
  assert (Hlo : pow2 (a - b - 1) <= x).
  { apply (Qmult_le_r _ _ _ Hd). rewrite Q_as_quotient.
    apply Qle_trans with (pow2 (a - b - 1) * pow2 (b + 1)).
    - apply Qmult_le_l; [apply pow2_pos | apply Qlt_le_weak, Hdu].
    - rewrite <- pow2_add. replace (a - b - 1 + (b + 1))%Z with a by lia. exact Hnl. }
  assert (Hhi : x < pow2 (a - b + 1)).
  { apply (Qmult_lt_r _ _ _ Hd). rewrite Q_as_quotient.
    apply Qlt_le_trans with (pow2 (a - b + 1) * pow2 b).
    - rewrite <- pow2_add. replace (a - b + 1 + b)%Z with (a + 1)%Z by lia. exact Hnu.
    - apply Qmult_le_l; [apply pow2_pos | exact Hdl]. }
  unfold flog2. fold a b.
  destruct (Qle_bool (pow2 (a - b)) x) eqn:E.
  - apply Qle_bool_iff in E. split; assumption.
  - split.
    + exact Hlo.
    + replace (a - b - 1 + 1)%Z with (a - b)%Z by lia.
      apply Qnot_le_lt. intros C. apply Qle_bool_iff in C. congruence.
Qed.

Lemma flog2_unique x e :
  pow2 e <= x -> x < pow2 (e + 1) -> flog2 x = e.
Proof.
  intros Hl Hu.
  assert (Hx : 0 < x) by (eapply Qlt_le_trans; [apply pow2_pos | exact Hl]).
  destruct (flog2_spec x Hx) as [Hl' Hu'].
  assert (flog2 x < e + 1)%Z by (apply pow2_lt_inv; eapply Qle_lt_trans; eassumption).
  assert (e < flog2 x + 1)%Z by (apply pow2_lt_inv; eapply Qle_lt_trans; eassumption).
  lia.
Qed.

Lemma flog2_mono x y : 0 < x -> x <= y -> (flog2 x <= flog2 y)%Z.
Proof.
  intros Hx Hxy.
  assert (Hy : 0 < y) by (eapply Qlt_le_trans; eassumption).
  destruct (flog2_spec x Hx) as [Hl _]. destruct (flog2_spec y Hy) as [_ Hu].
  assert (flog2 x < flog2 y + 1)%Z.
  { apply pow2_lt_inv. eapply Qle_lt_trans; [exact Hl|]. eapply Qle_lt_trans; eassumption. }
  lia.
Qed.

(** Rounding to the nearest integer. *)
Lemma rne_bounds x : (Qfloor x <= rne x <= Qfloor x + 1)%Z.
Proof.
  unfold rne. destruct (Qcompare _ _); [destruct (Z.even _)|..]; lia.
Qed.

Lemma rne_inject z : rne (inject_Z z) = z.
Proof.
  unfold rne. rewrite Qfloor_Z.
  assert (E : Qcompare (inject_Z z - inject_Z z) (1 # 2) = Lt).
  { apply Qlt_alt. unfold Qminus. rewrite Qplus_opp_r. reflexivity. }
  rewrite E. reflexivity.
Qed.

Lemma rne_mono x y : x <= y -> (rne x <= rne y)%Z.
Proof.
  intros Hxy.
  pose proof (Qfloor_resp_le _ _ Hxy) as Hf.
  destruct (Z.eq_dec (Qfloor x) (Qfloor y)) as [E|NE].
  - unfold rne. rewrite <- E.
    destruct (Qcompare (x - inject_Z (Qfloor x)) (1 # 2)) eqn:Cx;
    destruct (Qcompare (y - inject_Z (Qfloor x)) (1 # 2)) eqn:Cy;
      try (destruct (Z.even (Qfloor x))); try lia; exfalso;
      repeat match goal with
             | C : Qcompare _ _ = Eq |- _ => apply Qeq_alt in C
             | C : Qcompare _ _ = Lt |- _ => apply Qlt_alt in C
             | C : Qcompare _ _ = Gt |- _ => apply Qgt_alt in C
             end;
      lra.
  - pose proof (rne_bounds x). pose proof (rne_bounds y). lia.
Qed.

Lemma rne_comp x y : x == y -> rne x = rne y.
Proof.
  intros E. apply Z.le_antisymm; apply rne_mono; rewrite E; apply Qle_refl.
Qed.


Lemma Qabs_nonneg_eq x : 0 <= x -> Qabs x = x.
Proof.
  destruct x as [n d]. unfold Qle, Qabs. simpl. intros Hx.
  rewrite Z.abs_eq by lia. reflexivity.
Qed.

Local Abbreviation expo x := (Z.max (flog2 x) (-1022)).

Lemma fl_pos_val x :
  0 < x ->
  fl x == inject_Z (rne (x * pow2 (52 - expo x))) * pow2 (- (52 - expo x)).
Proof.
  intros Hx. unfold fl.
  destruct (Qeq_bool x 0) eqn:E.
  - apply Qeq_bool_iff in E. rewrite E in Hx. discriminate.
  - rewrite Qred_correct, Qabs_nonneg_eq by (apply Qlt_le_weak, Hx). reflexivity.
Qed.

Lemma fl_nonneg x : 0 <= x -> 0 <= fl x.
Proof.
  intros Hx. destruct (Qeq_bool x 0) eqn:E.
  - unfold fl. rewrite E. apply Qle_refl.
  - assert (Hp : 0 < x).
    { apply Qle_lteq in Hx. destruct Hx as [Hx|Hx]; [exact Hx|].
      symmetry in Hx. apply Qeq_bool_iff in Hx. congruence. }
    rewrite (fl_pos_val x Hp). apply Qmult_le_0_compat.
    + change 0 with (inject_Z 0). rewrite <- Zle_Qle.
      rewrite <- (rne_inject 0). apply rne_mono. simpl.
      apply Qmult_le_0_compat; [exact Hx | apply Qlt_le_weak, pow2_pos].
    + apply Qlt_le_weak, pow2_pos.
Qed.

Lemma fl_le_pow2 x : 0 < x -> fl x <= pow2 (expo x + 1).
Proof.
  intros Hx. rewrite (fl_pos_val x Hx).
  destruct (flog2_spec x Hx) as [_ Hu].
  set (k := (52 - expo x)%Z).
  assert (Hs : x * pow2 k <= inject_Z (2 ^ 53)).
  { rewrite <- pow2_inject by lia.
    replace 53%Z with (expo x + 1 + k)%Z by (unfold k; lia).
    rewrite pow2_add. apply Qmult_le_compat_r; [|apply Qlt_le_weak, pow2_pos].
    apply Qlt_le_weak. eapply Qlt_le_trans; [exact Hu|].
    apply pow2_le. lia. }
  apply rne_mono in Hs. rewrite rne_inject in Hs.
  apply Qle_trans with (inject_Z (2 ^ 53) * pow2 (- k)).
  - apply Qmult_le_compat_r; [|apply Qlt_le_weak, pow2_pos].
    rewrite <- Zle_Qle. exact Hs.
  - rewrite <- pow2_inject by lia. rewrite <- pow2_add.
    apply pow2_le. unfold k. lia.
Qed.

Lemma fl_ge_pow2 x : 0 < x -> (-1022 <= flog2 x)%Z -> pow2 (flog2 x) <= fl x.
Proof.
  intros Hx He. rewrite (fl_pos_val x Hx).
  destruct (flog2_spec x Hx) as [Hl _].
  assert (Ee : expo x = flog2 x) by lia. rewrite Ee.
  set (k := (52 - flog2 x)%Z).
  assert (Hs : inject_Z (2 ^ 52) <= x * pow2 k).
  { rewrite <- pow2_inject by lia.
    replace 52%Z with (flog2 x + k)%Z by (unfold k; lia).
    rewrite pow2_add. apply Qmult_le_compat_r; [exact Hl|apply Qlt_le_weak, pow2_pos]. }
  apply rne_mono in Hs. rewrite rne_inject in Hs.
  apply Qle_trans with (inject_Z (2 ^ 52) * pow2 (- k)).
  - rewrite <- pow2_inject by lia. rewrite <- pow2_add.
    apply pow2_le. unfold k. lia.
  - apply Qmult_le_compat_r; [|apply Qlt_le_weak, pow2_pos].
    rewrite <- Zle_Qle. exact Hs.
Qed.

Lemma fl_mono x y : 0 <= x -> x <= y -> fl x <= fl y.
Proof.
  intros Hx Hxy.
  assert (Hy : 0 <= y) by (eapply Qle_trans; eassumption).
  destruct (Qeq_bool x 0) eqn:E.
  { unfold fl at 1. rewrite E. apply fl_nonneg, Hy. }
  assert (Hxp : 0 < x).
  { apply Qle_lteq in Hx. destruct Hx as [Hx|Hx]; [exact Hx|].
    symmetry in Hx. apply Qeq_bool_iff in Hx. congruence. }
  assert (Hyp : 0 < y) by (eapply Qlt_le_trans; eassumption).
  pose proof (flog2_mono x y Hxp Hxy) as Hm.
  destruct (Z.eq_dec (expo x) (expo y)) as [Ee|Ne].
  - rewrite (fl_pos_val x Hxp), (fl_pos_val y Hyp), Ee.
    apply Qmult_le_compat_r; [|apply Qlt_le_weak, pow2_pos].
    rewrite <- Zle_Qle. apply rne_mono.
    apply Qmult_le_compat_r; [exact Hxy|apply Qlt_le_weak, pow2_pos].
  - assert (Hlt : (expo x + 1 <= flog2 y)%Z /\ (-1022 <= flog2 y)%Z)
      by lia.
    destruct Hlt as [H1 H2].
    eapply Qle_trans; [apply fl_le_pow2, Hxp|].
    eapply Qle_trans; [apply pow2_le, H1|].
    apply fl_ge_pow2; assumption.
Qed.

(** On the constants of every iteration of the sampler and on the bar
    lengths of a thousand amounts the model computes the very binary64
    values of the machine. *)
Lemma fl_agrees_with_binary64 :
  forallb sampler_agrees (map Z.of_nat (seq 1 900)) = true
  /\ forallb bar_agrees (map Z.of_nat (seq 0 1001)) = true.
Proof. split; vm_compute; reflexivity. Qed.

Lemma fl_one : fl 1 = 1.
Proof. vm_compute. reflexivity. Qed.

Lemma fl_unit x : 0 <= x <= 1 -> 0 <= fl x <= 1.
Proof.
  intros [H0 H1]. split; [apply fl_nonneg, H0|].
  rewrite <- fl_one. apply fl_mono; assumption.
Qed.

End FloatFacts.

(* ===================================================================== *)
(** * The availability estimator *)
(* ===================================================================== *)

Section EstimatorFacts.

Lemma leadwin_cases c : exists k, 1 <= k <= 864 /\ leadwin c = leadwin k.
Proof.
  unfold leadwin, window, interval.
  destruct (Z_le_gt_dec c 1); [exists 1; lia|].
  destruct (Z_le_gt_dec 864 c); [exists 864; lia|].
  exists c. lia.
Qed.

Lemma alpha_leadwin c k : leadwin c = leadwin k -> alpha c = alpha k.
Proof. unfold alpha, samples. intros ->. reflexivity. Qed.

Lemma beta_leadwin c k : leadwin c = leadwin k -> beta c = beta k.
Proof. unfold beta. intros E. rewrite (alpha_leadwin c k E). reflexivity. Qed.

Lemma constants_table :
  forallb constants_ok (map Z.of_nat (seq 1 864)) = true.
Proof. vm_compute. reflexivity. Qed.

Lemma constants_ok_all c : constants_ok c = true.
Proof.
  destruct (leadwin_cases c) as (k & Hk & E).
  unfold constants_ok. rewrite (alpha_leadwin c k E), (beta_leadwin c k E).
  pose proof constants_table as T. rewrite forallb_forall in T.
  apply (T k). apply in_map_iff. exists (Z.to_nat k). split; [lia|].
  apply in_seq. lia.
Qed.

Lemma smooth_unit c b a : in_unit a -> in_unit (smooth c b a).
Proof.
  intros [Ha0 Ha1].
  pose proof (constants_ok_all c) as Hc. unfold constants_ok in Hc.
  rewrite !andb_true_iff in Hc. destruct Hc as [[[Hal Hb0] Hb1] HT].
  apply Qle_bool_iff in Hal, Hb0, Hb1, HT.
  assert (Hab0 : (0 <= a * beta c)%Q) by (apply Qmult_le_0_compat; assumption).
  assert (Hab1 : (a * beta c <= beta c)%Q).
  { rewrite <- (Qmult_1_l (beta c)) at 2. apply Qmult_le_compat_r; assumption. }
  unfold smooth, fadd, fmul in *. destruct b.
  - pose proof (fl_nonneg (1 * alpha c)) as H1.
    assert (0 <= 1 * alpha c)%Q by (rewrite Qmult_1_l; exact Hal).
    specialize (H1 H). pose proof (fl_nonneg _ Hab0) as H2.
    pose proof (fl_mono _ _ Hab0 Hab1) as H3.
    split.
    + apply fl_nonneg. lra.
    + eapply Qle_trans; [|exact HT]. apply fl_mono; lra.
  - assert (E0 : fl (0 * alpha c) = 0%Q).
    { unfold fl. assert (Qeq_bool (0 * alpha c) 0 = true) as ->; [|reflexivity].
      apply Qeq_bool_iff. ring. }
    rewrite E0. pose proof (fl_unit (a * beta c)) as [H2 H3]; [split; lra|].
    apply fl_unit. split; lra.
Qed.


Lemma in_unit_seed (b : bool) : in_unit (if b then 1 else 0)%Q.
Proof. destruct b; split; discriminate. Qed.

Lemma addpeer_lookup_ne now p st pid :
  pid <> p_id p -> addpeer now p st !! pid = st !! pid.
Proof.
  intros Hne. unfold addpeer. destruct (st !! p_id p); [reflexivity|].
  rewrite lookup_insert_ne by congruence. reflexivity.
Qed.

Lemma addpeer_lookup_eq now p st :
  exists e, addpeer now p st !! p_id p = Some e /\ availability e = prior p st.
Proof.
  unfold addpeer, prior. destruct (st !! p_id p) as [e|] eqn:E.
  - exists e. split; [exact E | reflexivity].
  - eexists. rewrite lookup_insert_eq. split; reflexivity.
Qed.

Lemma addpeer_wf now p st : wf st -> wf (addpeer now p st).
Proof.
  intros Hw pid s. destruct (decide (pid = p_id p)) as [->|Hne].
  - destruct (addpeer_lookup_eq now p st) as (e & -> & Ea). intros [= <-].
    rewrite Ea. unfold prior. destruct (st !! p_id p) eqn:E.
    + eapply Hw, E.
    + apply in_unit_seed.
  - rewrite addpeer_lookup_ne by exact Hne. apply Hw.
Qed.

Lemma update_peer_lookup_ne c now p st pid :
  pid <> p_id p -> update_peer c now p st !! pid = st !! pid.
Proof.
  intros Hne. unfold update_peer. rewrite lookup_alter_ne by congruence.
  apply addpeer_lookup_ne, Hne.
Qed.

Lemma update_peer_lookup_eq c now p st :
  exists e, update_peer c now p st !! p_id p = Some e
            /\ connected e = p_connected p
            /\ availability e = smooth c (p_connected p) (prior p st).
Proof.
  unfold update_peer. rewrite lookup_alter_eq.
  destruct (addpeer_lookup_eq now p st) as (e & -> & Ea). simpl.
  eexists. split; [reflexivity|]. rewrite <- Ea.
  destruct (p_connected p); split; reflexivity.
Qed.

Lemma update_peer_wf c now p st : wf st -> wf (update_peer c now p st).
Proof.
  intros Hw pid s. destruct (decide (pid = p_id p)) as [->|Hne].
  - destruct (update_peer_lookup_eq c now p st) as (e & -> & _ & Ea).
    intros [= <-]. rewrite Ea. apply smooth_unit.
    unfold prior. destruct (st !! p_id p) eqn:E.
    + eapply Hw, E.
    + apply in_unit_seed.
  - rewrite update_peer_lookup_ne by exact Hne. apply Hw.
Qed.

Lemma fold_wf {A} (f : gmap string PeerState -> A -> gmap string PeerState) l st :
  (forall st x, wf st -> wf (f st x)) -> wf st -> wf (fold_left f l st).
Proof.
  intros Hf. revert st. induction l as [|x l IH]; simpl; intros st Hw;
    [exact Hw | apply IH, Hf, Hw].
Qed.

Lemma step_wf e s : wf (peerstate s) -> wf (peerstate (step e s)).
Proof.
  intros Hw. destruct e as [now [peers|]|now peers]; simpl.
  - apply fold_wf; [|exact Hw]. intros. apply update_peer_wf. assumption.
  - exact Hw.
  - apply fold_wf; [|exact Hw]. intros. apply addpeer_wf. assumption.
Qed.

Lemma process_wf events s : wf (peerstate s) -> wf (peerstate (process events s)).
Proof.
  revert s. induction events as [|e events IH]; simpl; intros s Hw;
    [exact Hw | apply IH, step_wf, Hw].
Qed.

(** Claim C5.  Whatever sampler iterations and report requests happen, in
    whatever order and with whatever answers of the daemon (failed calls
    included), every entry of [peerstate] holds an availability in the
    closed interval [0,1].  The seed is 1.0 or 0.0 and each iteration
    replaces the value by [sample * alpha + value * beta], computed in
    binary64 arithmetic. *)
Theorem availability_in_unit_interval (events : list Event) (pid : string) (s : PeerState) :
  peerstate (process events sampler_init) !! pid = Some s ->
  (0 <= availability s)%Q /\ (availability s <= 1)%Q.
Proof.
  apply (process_wf events sampler_init). intros p e. simpl.
  rewrite lookup_empty. discriminate.
Qed.


Lemma fl_eq0 x : (x == 0)%Q -> fl x = 0%Q.
Proof.
  intros E. unfold fl. apply Qeq_bool_iff in E. rewrite E. reflexivity.
Qed.

Lemma alpha_first : alpha 1 = 1%Q.
Proof. vm_compute. reflexivity. Qed.

Lemma beta_first : beta 1 = 0%Q.
Proof. vm_compute. reflexivity. Qed.

Lemma smooth_first b a : smooth 1 b a = if b then 1%Q else 0%Q.
Proof.
  unfold smooth, fadd, fmul. rewrite alpha_first, beta_first.
  rewrite (fl_eq0 (a * 0)) by ring.
  destruct b; vm_compute; reflexivity.
Qed.

Lemma last_report_snoc pid l q :
  last_report pid (l ++ [q]) =
  if bool_decide (p_id q = pid) then Some q else last_report pid l.
Proof. unfold last_report. rewrite fold_left_app. reflexivity. Qed.

Lemma last_report_id pid peers p :
  last_report pid peers = Some p -> p_id p = pid /\ In p peers.
Proof.
  induction peers as [|q l IH] using rev_ind; [discriminate|].
  rewrite last_report_snoc. case_bool_decide as E.
  - intros [= ->]. split; [exact E | apply in_or_app; right; left; reflexivity].
  - intros Hl. destruct (IH Hl). split; [assumption | apply in_or_app; left; assumption].
Qed.

Lemma fold_update_first now peers st pid p :
  last_report pid peers = Some p ->
  exists e, fold_left (fun st p => update_peer 1 now p st) peers st !! pid = Some e
            /\ connected e = p_connected p
            /\ availability e = if p_connected p then 1%Q else 0%Q.
Proof.
  induction peers as [|q l IH] using rev_ind; [discriminate|].
  rewrite last_report_snoc, fold_left_app. simpl. case_bool_decide as E.
  - intros [= ->]. subst pid.
    destruct (update_peer_lookup_eq 1 now p
                (fold_left (fun st p => update_peer 1 now p st) l st))
      as (e & He & Hc & Ha).
    exists e. rewrite smooth_first in Ha. auto.
  - intros Hl. rewrite update_peer_lookup_ne by congruence. apply IH, Hl.
Qed.

(** Claim C6.  On the first iteration the counter is 1, the lead window is
    one interval and alpha is exactly 1.0; every peer of the answer then
    holds exactly 1.0 when it is reported connected and exactly 0.0 when it
    is not, whatever the dict held before.  For an id listed more than once
    the last entry decides. *)
Theorem first_tick_exact (now : Z) (peers : list Peer) (s : Sampler)
    (pid : string) (p : Peer) :
  count s = 0 ->
  last_report pid peers = Some p ->
  leadwin (count s + 1) = interval /\
  alpha (count s + 1) = 1%Q /\
  exists e, peerstate (PeerThread_tick now (Some peers) s) !! pid = Some e
            /\ connected e = p_connected p
            /\ availability e = if p_connected p then 1%Q else 0%Q.
Proof.
  intros Hc Hl. rewrite Hc. simpl.
  split; [reflexivity|]. split; [exact alpha_first|].
  unfold PeerThread_tick. rewrite Hc. simpl. apply fold_update_first, Hl.
Qed.

Lemma fold_update_notin c now peers st pid :
  ~ In pid (map p_id peers) ->
  fold_left (fun st p => update_peer c now p st) peers st !! pid = st !! pid.
Proof.
  revert st. induction peers as [|q l IH]; simpl; intros st Hn; [reflexivity|].
  rewrite IH by tauto. apply update_peer_lookup_ne. intros ->. tauto.
Qed.

Lemma fold_update_nodup c now peers st p :
  In p peers -> List.NoDup (map p_id peers) ->
  exists e, fold_left (fun st p => update_peer c now p st) peers st !! p_id p = Some e
            /\ connected e = p_connected p
            /\ availability e = smooth c (p_connected p) (prior p st).
Proof.
  revert st. induction peers as [|q l IH]; simpl; intros st Hin Hnd; [contradiction|].
  inversion Hnd as [|? ? Hq Hl]; subst.
  destruct Hin as [->|Hin].
  - rewrite fold_update_notin by exact Hq. apply update_peer_lookup_eq.
  - assert (Hne : p_id p <> p_id q).
    { intros E. apply Hq. rewrite <- E. apply in_map, Hin. }
    destruct (IH (update_peer c now q st) Hin Hl) as (e & He & Hc & Ha).
    exists e. split; [exact He|]. split; [exact Hc|].
    rewrite Ha. unfold prior. rewrite update_peer_lookup_ne by exact Hne. reflexivity.
Qed.

Lemma smooth_late c : 864 <= c -> smooth c = smooth 864.
Proof.
  intros Hc. unfold smooth.
  assert (E : leadwin c = leadwin 864) by (unfold leadwin, window, interval; lia).
  rewrite (alpha_leadwin _ _ E), (beta_leadwin _ _ E). reflexivity.
Qed.

(** Claim C2, amended.  The smoothing constants of an iteration come from
    the loop counter of the sampler thread, the same for every peer: a peer
    of the answer ends with [smooth (count + 1)] applied to the value it had
    (its seed when it is new), and from the 864th iteration on these are
    the constants of the full 72 hour window, also for a peer seen for the
    first time. *)
Theorem tick_smooths_with_global_count (now : Z) (peers : list Peer)
    (s : Sampler) (p : Peer) :
  In p peers -> List.NoDup (map p_id peers) ->
  (exists e, peerstate (PeerThread_tick now (Some peers) s) !! p_id p = Some e
             /\ availability e
                = smooth (count s + 1) (p_connected p) (prior p (peerstate s)))
  /\ (863 <= count s -> smooth (count s + 1) = smooth 864).
Proof.
  intros Hin Hnd. split.
  - destruct (fold_update_nodup (count s + 1) now peers (peerstate s) p Hin Hnd)
      as (e & He & _ & Ha).
    exists e. split; [exact He | exact Ha].
  - intros Hc. apply smooth_late. lia.
Qed.

(** Claim C2, refuted as stated.  A peer first seen, connected, at
    iteration 901 and reported disconnected at iteration 902: the source
    smooths its second sample with the constants of the full window and
    stores 1 - 1/864, about 0.9988; driven by the entry's own count of
    samples the warm-up window of two intervals would have stored 0.5. *)
Lemma own_sample_count_refuted :
  availability <$> (peerstate (PeerThread_run late_peer_ticks sampler_init) !! "A")
    = Some (beta 864)
  /\ pa_availability <$> (spec_run late_peer_ticks ∅ !! "A") = Some (1 # 2)%Q
  /\ availability <$> (peerstate (PeerThread_run late_peer_ticks sampler_init) !! "A")
     <> pa_availability <$> (spec_run late_peer_ticks ∅ !! "A").
Proof.
  assert (E1 : availability <$>
                 (peerstate (PeerThread_run late_peer_ticks sampler_init) !! "A")
               = Some (beta 864)) by (vm_compute; reflexivity).
  assert (E2 : pa_availability <$> (spec_run late_peer_ticks ∅ !! "A")
               = Some (1 # 2)%Q) by (vm_compute; reflexivity).
  rewrite E1, E2. repeat split. vm_compute. discriminate.
Qed.

End EstimatorFacts.

(* ===================================================================== *)
(** * The money formatter *)
(* ===================================================================== *)

Lemma bind_ok {A B} (a : A) (k : A -> res B) : (Ok a ≫= k) = k a.
Proof. reflexivity. Qed.

Lemma append_cons a s t : (String a s ++ t)%string = String a (s ++ t)%string.
Proof. reflexivity. Qed.

Lemma append_nil s : ("" ++ s)%string = s.
Proof. reflexivity. Qed.

Lemma append_nonempty s t : t <> ""%string -> (s ++ t)%string <> ""%string.
Proof.
  intros Ht. destruct s; [exact Ht | rewrite append_cons; discriminate].
Qed.

Lemma min_by_len_in best l : min_by_len best l = best \/ In (min_by_len best l) l.
Proof.
  revert best. induction l as [|s l IH]; intros best; simpl; [left; reflexivity|].
  destruct (String.length s <? String.length best)%nat.
  - destruct (IH s) as [E|Hin]; [right; left; symmetry; exact E | right; right; exact Hin].
  - destruct (IH best) as [E|Hin]; [left; exact E | right; right; exact Hin].
Qed.

Section FormatterFacts.
Context `{Lib}.

(** A candidate ends in its unit, so it is never the empty str. *)
Lemma test_result_nonempty a : test_result a <> ""%string.
Proof.
  unfold test_result, amounts_str.
  destruct (min_by_len_in
              (format_g (fdiv (fl (inject_Z a / inject_Z 1000))
                              (float_of_int (10 ^ 8))) ++ "btc")%string
              [ (format_g (fl (inject_Z a / inject_Z 1000)) ++ "sat")%string;
                (format_g (float_of_int a) ++ "msat")%string ])
    as [E|[E|[E|[]]]]; [rewrite E | rewrite <- E ..];
    apply append_nonempty; discriminate.
Qed.




Lemma loop_unfold fuel msat digits result :
  msat_to_approx_str_loop (S fuel) msat digits result =
  (amount_rounded ← round_to_n msat digits;
   if bool_decide (Some (test_result amount_rounded) = result) then Ok result
   else if falsy result || len_le (test_result amount_rounded) result
   then msat_to_approx_str_loop fuel msat (digits + 1)
          (Some (test_result amount_rounded))
   else Ok result).
Proof. reflexivity. Qed.






Lemma msat_to_approx_str_nonpositive msat digits :
  msat <= 0 -> msat_to_approx_str msat digits = Raise ValueError.
Proof.
  intros Hm. unfold msat_to_approx_str, enough_fuel.
  rewrite Nat.add_comm. cbn [Nat.add msat_to_approx_str_loop].
  unfold round_to_n. destruct (Z.leb_spec msat 0); [reflexivity | lia].
Qed.


End FormatterFacts.

(* ===================================================================== *)
(** * The report *)
(* ===================================================================== *)

Section ReportFacts.

Lemma res_bind_inv {A B} (m : res A) (k : A -> res B) (b : B) :
  (m ≫= k) = Ok b -> exists a, m = Ok a /\ k a = Ok b.
Proof. destruct m; simpl; intros E; [eauto | discriminate..]. Qed.

Lemma channel_step_not_normal E st p c a t :
  String.eqb (c_state c) "CHANNELD_NORMAL" = false ->
  channel_step E st p c (a, t) = Ok (a, t).
Proof. intros Hs. unfold channel_step. rewrite Hs. reflexivity. Qed.

Lemma channel_step_excluded E st p c a t :
  String.eqb (c_state c) "CHANNELD_NORMAL" = true ->
  is_excluded (c_short_channel_id c) E = true ->
  channel_step E st p c (a, t) = Ok (true, t).
Proof. intros Hs He. unfold channel_step. rewrite Hs, He. reflexivity. Qed.

Lemma channel_step_eligible E st p c a t :
  eligible E c = true ->
  channel_step E st p c (a, t) = (r ← chan_rec st p c; Ok (true, push t r)).
Proof.
  unfold eligible. rewrite andb_true_iff, negb_true_iff. intros [Hs He].
  unfold channel_step, chan_rec. rewrite Hs, He. simpl.
  destruct (if c_our_reserve_msat c <? c_to_us_msat c then _ else _); try reflexivity.
  simpl. destruct (msat_sub (c_total_msat c) (c_to_us_msat c)); try reflexivity.
  simpl. destruct (if c_their_reserve_msat c <? _ then _ else _); try reflexivity.
  simpl. destruct (st !! p_id p); reflexivity.
Qed.

Lemma chan_rec_fields st p c r :
  chan_rec st p c = Ok r ->
  ch_scid r = c_short_channel_id c /\ ch_connected r = p_connected p
  /\ ch_peer r = p_id p /\ 0 <= ch_to_us r /\ 0 <= ch_to_them r.
Proof.
  unfold chan_rec. intros E.
  apply res_bind_inv in E. destruct E as (u & Hu & E).
  apply res_bind_inv in E. destruct E as (v & Hv & E).
  apply res_bind_inv in E. destruct E as (w & Hw & E).
  apply res_bind_inv in E. destruct E as (a & Ha & E).
  injection E as <-. simpl.
  assert (HM : forall x y, Millisatoshi x = Ok y -> 0 <= y).
  { intros x y. unfold Millisatoshi. destruct (Z.ltb_spec x 0); [discriminate|].
    intros [= <-]. assumption. }
  unfold msat_sub in *.
  repeat split; auto.
  - destruct (c_our_reserve_msat c <? c_to_us_msat c); eapply HM; exact Hu.
  - destruct (c_their_reserve_msat c <? v); eapply HM; exact Hw.
Qed.


Lemma eligible_normal E c : eligible E c = true -> normal c = true.
Proof. unfold eligible, normal. rewrite andb_true_iff. tauto. Qed.

Lemma sum_of_app f l1 l2 : sum_of f (l1 ++ l2) = sum_of f l1 + sum_of f l2.
Proof.
  unfold sum_of. induction l1 as [|x l1 IH]; simpl; [reflexivity | rewrite IH; lia].
Qed.

Lemma count_of_app f l1 l2 : count_of f (l1 ++ l2) = count_of f l1 + count_of f l2.
Proof.
  unfold count_of. rewrite List.filter_app, length_app. lia.
Qed.

Lemma totals_ext (t u : Totals) :
  num_channels t = num_channels u -> num_connected t = num_connected u ->
  num_gossipers t = num_gossipers u -> avail_out t = avail_out u ->
  avail_in t = avail_in u -> chans t = chans u -> t = u.
Proof. destruct t, u; simpl; intros; subst; reflexivity. Qed.

Lemma extend_nil t : extend t [] 0 = t.
Proof.
  apply totals_ext; simpl; rewrite ?app_nil_r; unfold count_of, sum_of; simpl;
    first [reflexivity | lia].
Qed.

Lemma extend_extend t l1 g1 l2 g2 :
  extend (extend t l1 g1) l2 g2 = extend t (l1 ++ l2) (g1 + g2).
Proof.
  apply totals_ext; simpl;
    rewrite ?length_app, ?count_of_app, ?sum_of_app, <- ?app_assoc;
    first [reflexivity | lia].
Qed.

Lemma push_extend t r : push t r = extend t [r] 0.
Proof.
  apply totals_ext; simpl; unfold count_of, sum_of; simpl;
    try destruct (ch_connected r); simpl; first [reflexivity | lia].
Qed.

Lemma channels_closed E st p cs a t :
  foldM (channel_step E st p) cs (a, t) =
  (recs ← mapM (chan_rec st p) (List.filter (eligible E) cs);
   Ok (a || existsb normal cs, extend t recs 0)).
Proof.
  revert a t. induction cs as [|c cs IH]; intros a t.
  - simpl. rewrite orb_false_r, extend_nil. reflexivity.
  - cbn [foldM List.filter existsb].
    destruct (eligible E c) eqn:El.
    + rewrite (channel_step_eligible _ _ _ _ _ _ El).
      rewrite (eligible_normal _ _ El). cbn [mapM].
      destruct (chan_rec st p c) as [r| |]; try reflexivity.
      rewrite !bind_ok, IH.
      destruct (mapM _ _) as [rs| |]; try reflexivity.
      rewrite !bind_ok, push_extend, extend_extend, orb_true_r. reflexivity.
    + unfold eligible in El. fold (normal c) in El.
      destruct (normal c) eqn:N.
      * simpl in El. apply negb_false_iff in El.
        rewrite channel_step_excluded by assumption.
        rewrite bind_ok, IH, orb_true_r. reflexivity.
      * rewrite channel_step_not_normal by exact N.
        rewrite bind_ok, IH, orb_false_l. reflexivity.
Qed.

Lemma peer_step_closed E now p st t :
  peer_step E now p (st, t) =
  (recs ← mapM (chan_rec (addpeer now p st) p)
              (List.filter (eligible E) (p_channels p));
   Ok (addpeer now p st, extend t recs (gossip p))).
Proof.
  unfold peer_step. rewrite channels_closed.
  destruct (mapM _ _) as [rs| |]; try reflexivity.
  rewrite !bind_ok. cbn [orb]. unfold gossip.
  destruct (negb (existsb normal (p_channels p)) && p_connected p).
  - f_equal. f_equal. apply totals_ext; simpl; first [reflexivity | lia].
  - reflexivity.
Qed.

Lemma peers_closed E now peers st t :
  foldM (peer_step E now) peers (st, t) =
  (recs ← records E now peers st;
   Ok (fold_left (fun st p => addpeer now p st) peers st,
       extend t recs (gossipers_of peers))).
Proof.
  revert st t. induction peers as [|p peers IH]; intros st t.
  - simpl. rewrite extend_nil. reflexivity.
  - cbn [foldM records fold_left]. rewrite peer_step_closed.
    destruct (mapM _ _) as [rs| |]; try reflexivity.
    rewrite !bind_ok, IH.
    destruct (records E now peers (addpeer now p st)) as [rest| |]; try reflexivity.
    rewrite !bind_ok, extend_extend. reflexivity.
Qed.

Lemma collect_closed E now peers st :
  collect E now peers st =
  (recs ← records E now peers st;
   Ok (fold_left (fun st p => addpeer now p st) peers st,
       extend totals_init recs (gossipers_of peers))).
Proof. apply peers_closed. Qed.


Lemma mapM_length {A B} (f : A -> res B) l rs :
  mapM f l = Ok rs -> length rs = length l.
Proof.
  revert rs. induction l as [|x l IH]; intros rs; cbn [mapM].
  - intros [= <-]. reflexivity.
  - intros E. apply res_bind_inv in E. destruct E as (y & _ & E).
    apply res_bind_inv in E. destruct E as (ys & Hys & E).
    injection E as <-. simpl. f_equal. apply IH, Hys.
Qed.

Lemma mapM_Forall {A B} (f : A -> res B) (P : B -> Prop) l rs :
  (forall x r, f x = Ok r -> P r) -> mapM f l = Ok rs -> Forall P rs.
Proof.
  intros Hf. revert rs. induction l as [|x l IH]; intros rs; cbn [mapM].
  - intros [= <-]. constructor.
  - intros E. apply res_bind_inv in E. destruct E as (y & Hy & E).
    apply res_bind_inv in E. destruct E as (ys & Hys & E).
    injection E as <-. constructor; [eapply Hf, Hy | apply IH, Hys].
Qed.

Lemma mapM_filter {A B} (f : A -> res B) (k : A -> bool) (q : B -> bool) l rs :
  (forall x r, f x = Ok r -> q r = k x) ->
  mapM f l = Ok rs -> mapM f (List.filter k l) = Ok (List.filter q rs).
Proof.
  intros Hf. revert rs. induction l as [|x l IH]; intros rs; cbn [mapM List.filter].
  - intros [= <-]. reflexivity.
  - intros E. apply res_bind_inv in E. destruct E as (y & Hy & E).
    apply res_bind_inv in E. destruct E as (ys & Hys & E).
    injection E as <-. cbn [List.filter]. rewrite (Hf x y Hy).
    destruct (k x).
    + cbn [mapM]. rewrite Hy, bind_ok, (IH ys Hys). reflexivity.
    + apply IH, Hys.
Qed.

Lemma count_of_all f l : Forall (fun r => f r = true) l -> count_of f l = Z.of_nat (length l).
Proof.
  unfold count_of. induction 1 as [|x l Hx _ IH]; simpl; [reflexivity|].
  rewrite Hx. simpl. lia.
Qed.

Lemma count_of_none f l : Forall (fun r => f r = false) l -> count_of f l = 0.
Proof.
  unfold count_of. induction 1 as [|x l Hx _ IH]; simpl; [reflexivity|].
  rewrite Hx. exact IH.
Qed.

Lemma records_connected E now peers st recs :
  records E now peers st = Ok recs ->
  count_of ch_connected recs = connected_channels E peers.
Proof.
  revert st recs. induction peers as [|p peers IH]; intros st recs; cbn [records].
  - intros [= <-]. reflexivity.
  - intros H. apply res_bind_inv in H. destruct H as (rs & Hrs & H).
    apply res_bind_inv in H. destruct H as (rest & Hrest & H).
    injection H as <-. rewrite count_of_app, (IH _ _ Hrest).
    unfold connected_channels. cbn [map fold_right]. f_equal.
    assert (Hc : Forall (fun r => ch_connected r = p_connected p) rs).
    { eapply mapM_Forall; [|exact Hrs]. intros c r Hr.
      apply chan_rec_fields in Hr. tauto. }
    rewrite <- (mapM_length _ _ _ Hrs).
    destruct (p_connected p); [apply count_of_all | apply count_of_none]; exact Hc.
Qed.

Lemma filter_andb {A} (f g : A -> bool) l :
  List.filter (fun x => f x && g x) l = List.filter g (List.filter f l).
Proof.
  induction l as [|x l IH]; simpl; [reflexivity|].
  destruct (f x); simpl; [destruct (g x)|]; rewrite IH; reflexivity.
Qed.

Lemma eligible_cons s l c :
  eligible (ExcludeList (s :: l)) c =
  eligible (ExcludeList l) c && negb (bool_decide (c_short_channel_id c = s)).
Proof.
  unfold eligible, is_excluded.
  destruct (String.eqb (c_state c) "CHANNELD_NORMAL"); simpl; [|reflexivity].
  destruct (decide (c_short_channel_id c = s)) as [E|NE].
  - rewrite (bool_decide_eq_true_2 (c_short_channel_id c = s)) by exact E.
    rewrite bool_decide_eq_true_2 by (rewrite E; left).
    simpl. rewrite andb_false_r. reflexivity.
  - rewrite (bool_decide_eq_false_2 (c_short_channel_id c = s)) by exact NE.
    simpl. rewrite andb_true_r. f_equal. apply bool_decide_ext.
    rewrite elem_of_cons. tauto.
Qed.

Lemma records_cons s l now peers st recs :
  records (ExcludeList l) now peers st = Ok recs ->
  records (ExcludeList (s :: l)) now peers st = Ok (without_scid s recs).
Proof.
  revert st recs. induction peers as [|p peers IH]; intros st recs; cbn [records].
  - intros [= <-]. reflexivity.
  - intros H. apply res_bind_inv in H. destruct H as (rs & Hrs & H).
    apply res_bind_inv in H. destruct H as (rest & Hrest & H).
    injection H as <-.
    rewrite (List.filter_ext _ _ (eligible_cons s l)), filter_andb.
    erewrite mapM_filter; [|clear; intros c r Hr|exact Hrs].
    + rewrite bind_ok, (IH _ _ Hrest), bind_ok.
      unfold without_scid. rewrite List.filter_app. reflexivity.
    + apply chan_rec_fields in Hr. destruct Hr as (-> & _). reflexivity.
Qed.

Lemma sum_of_split f s l :
  sum_of f (without_scid s l) = sum_of f l - sum_of f (with_scid s l).
Proof.
  unfold sum_of, without_scid, with_scid.
  induction l as [|x l IH]; simpl; [reflexivity|].
  destruct (bool_decide (ch_scid x = s)); simpl; lia.
Qed.

Lemma count_of_split f s l :
  count_of f (without_scid s l) = count_of f l - count_of f (with_scid s l).
Proof.
  unfold count_of, without_scid, with_scid.
  induction l as [|x l IH]; simpl; [reflexivity|].
  destruct (bool_decide (ch_scid x = s)); simpl; destruct (f x); simpl; lia.
Qed.

Lemma length_split s l :
  Z.of_nat (length (without_scid s l)) =
  Z.of_nat (length l) - Z.of_nat (length (with_scid s l)).
Proof.
  unfold without_scid, with_scid.
  induction l as [|x l IH]; simpl; [reflexivity|].
  destruct (bool_decide (ch_scid x = s)); simpl; lia.
Qed.

Lemma prefix_iff n h :
  String.prefix n h = true <-> exists post, h = (n ++ post)%string.
Proof.
  revert h. induction n as [|a n IH]; intros h.
  - split; [eauto | destruct h; reflexivity].
  - destruct h as [|b h]; simpl.
    + split; [discriminate | intros [post E]; discriminate].
    + destruct (ascii_dec a b) as [->|Hne].
      * rewrite IH. split; intros [post E]; exists post;
          rewrite ?append_cons in *; congruence.
      * split; [discriminate | intros [post E]; rewrite append_cons in E; congruence].
Qed.

Lemma contains_iff n h :
  contains n h = true <-> exists pre post, h = (pre ++ n ++ post)%string.
Proof.
  induction h as [|a h IH]; cbn [contains]; rewrite orb_true_iff, prefix_iff.
  - split.
    + intros [[post E]|F]; [|discriminate]. exists ""%string, post. exact E.
    + intros (pre & post & E). left. destruct pre; [|discriminate].
      exists post. exact E.
  - rewrite IH. split.
    + intros [[post E]|(pre & post & E)].
      * exists ""%string, post. exact E.
      * exists (String a pre), post. rewrite append_cons. congruence.
    + intros (pre & post & E). destruct pre as [|b pre].
      * left. exists post. exact E.
      * right. exists pre, post. rewrite append_cons in E. congruence.
Qed.

Section WithLib.
Context `{Lib}.
Variable draw : Charset.
Variable listnodes : string -> list (option pystr).

(** The report in terms of the tuples of the eligible channels. *)
Lemma summary_closed now funds peers E st :
  summary draw listnodes now funds peers E st =
  (utxo_amount ←
     Millisatoshi (fold_right Z.add 0
       (map fst (List.filter (fun f => String.eqb (snd f) "confirmed") funds)));
   recs ← records E now peers st;
   channels ← render draw listnodes recs;
   Ok ({| r_num_utxos :=
            Z.of_nat (length (map fst (List.filter
                        (fun f => String.eqb (snd f) "confirmed") funds)));
          r_utxo_amount := utxo_amount;
          r_avail_out := sum_of ch_to_us recs;
          r_avail_in := sum_of ch_to_them recs;
          r_num_channels := Z.of_nat (length recs);
          r_num_connected := count_of ch_connected recs;
          r_num_gossipers := gossipers_of peers;
          r_channels := channels |},
       fold_left (fun st p => addpeer now p st) peers st)).
Proof.
  unfold summary. destruct (Millisatoshi _) as [u| |]; try reflexivity.
  rewrite !bind_ok, collect_closed.
  destruct (records E now peers st) as [recs| |]; reflexivity.
Qed.

(** Claim C1, amended.  [num_connected] is the number of channels in the
    normal state and not excluded whose peer is connected: a connected peer
    counts once per such channel, not at all without one, and the exclusion
    argument takes part. *)
Theorem num_connected_counts_channels now funds peers E st r st' :
  summary draw listnodes now funds peers E st = Ok (r, st') ->
  r_num_connected r = connected_channels E peers.
Proof.
  rewrite summary_closed. intros Hs.
  apply res_bind_inv in Hs. destruct Hs as (u & _ & Hs).
  apply res_bind_inv in Hs. destruct Hs as (recs & Hr & Hs).
  apply res_bind_inv in Hs. destruct Hs as (ch & _ & Hs).
  injection Hs as <- _. simpl. eapply records_connected, Hr.
Qed.


(** Claim C8, amended.  Adding an scid to the exclusion list gives the same
    report with the tuples of that scid left out: their amounts leave
    [avail_out] and [avail_in], the table is rendered from the remaining
    tuples, [num_channels] and [num_connected] drop by the tuples left out
    (by those of connected peers for the latter), and [num_gossipers], the
    UTXO fields and the dict are unchanged. *)
Theorem exclusion_frame now funds peers l s st r st' :
  summary draw listnodes now funds peers (ExcludeList l) st = Ok (r, st') ->
  exists recs,
    records (ExcludeList l) now peers st = Ok recs
    /\ render draw listnodes recs = Ok (r_channels r)
    /\ summary draw listnodes now funds peers (ExcludeList (s :: l)) st =
       (channels ← render draw listnodes (without_scid s recs);
        Ok ({| r_num_utxos := r_num_utxos r;
               r_utxo_amount := r_utxo_amount r;
               r_avail_out := r_avail_out r - sum_of ch_to_us (with_scid s recs);
               r_avail_in := r_avail_in r - sum_of ch_to_them (with_scid s recs);
               r_num_channels :=
                 r_num_channels r - Z.of_nat (length (with_scid s recs));
               r_num_connected :=
                 r_num_connected r - count_of ch_connected (with_scid s recs);
               r_num_gossipers := r_num_gossipers r;
               r_channels := channels |},
            st')).
Proof.
  rewrite !summary_closed. intros Hs.
  apply res_bind_inv in Hs. destruct Hs as (u & Hu & Hs).
  apply res_bind_inv in Hs. destruct Hs as (recs & Hr & Hs).
  apply res_bind_inv in Hs. destruct Hs as (ch & Hch & Hs).
  injection Hs as <- <-. exists recs. cbn [r_channels r_num_utxos r_utxo_amount
    r_avail_out r_avail_in r_num_channels r_num_connected r_num_gossipers].
  split; [exact Hr|]. split; [exact Hch|].
  rewrite Hu, bind_ok, (records_cons s l _ _ _ _ Hr), bind_ok.
  rewrite !sum_of_split, count_of_split, length_split. reflexivity.
Qed.


Lemma biggest_of_zero c cs :
  Forall (fun r => ch_to_us r = 0 /\ ch_to_them r = 0) (c :: cs) ->
  biggest_of c cs = 0.
Proof.
  intros Hz. inversion Hz as [|? ? [Hu Ht] Hcs]; subst.
  unfold biggest_of. rewrite Hu, Ht. simpl.
  clear Hz Hu Ht. induction Hcs as [|x l [Hu Ht] _ IH]; simpl; [reflexivity|].
  rewrite Hu, Ht. exact IH.
Qed.

Lemma append_header_zero table : append_header draw table 0 = Raise ValueError.
Proof.
  unfold append_header. cbn [Millisatoshi Z.ltb Z.compare]. rewrite bind_ok.
  rewrite msat_to_approx_str_nonpositive by lia. reflexivity.
Qed.

Lemma channel_line_zero c : channel_line draw listnodes 0 c = Raise ZeroDivisionError.
Proof. reflexivity. Qed.

(** Claim C9, amended.  When the collected tuples are not empty and all
    hold zero on both sides, [biggest] is 0 and the report raises: the
    header is built first and [msat_to_approx_str] of 0 raises ValueError.
    The line computation, which is not reached, would divide by zero for
    every tuple; rendering needs [biggest > 0]. *)
Theorem zero_balances_fail now funds peers E st st' t :
  collect E now peers st = Ok (st', t) ->
  chans t <> [] ->
  Forall (fun r => ch_to_us r = 0 /\ ch_to_them r = 0) (chans t) ->
  render draw listnodes (chans t) = Raise ValueError
  /\ summary draw listnodes now funds peers E st = Raise ValueError
  /\ forall c, channel_line draw listnodes 0 c = Raise ZeroDivisionError.
Proof.
  intros Hc Hne Hz.
  assert (Hr : render draw listnodes (chans t) = Raise ValueError).
  { destruct (chans t) as [|c cs]; [congruence|].
    unfold render. rewrite (biggest_of_zero c cs Hz), append_header_zero.
    reflexivity. }
  split; [exact Hr|]. split; [|exact channel_line_zero].
  unfold summary. unfold Millisatoshi at 1.
  destruct (_ <? 0); [reflexivity|].
  rewrite bind_ok, Hc, bind_ok, Hr. reflexivity.
Qed.

Lemma rjust_nil w : rjust w [] = repeat space w.
Proof. unfold rjust. simpl. rewrite Nat.sub_0_r, app_nil_r. reflexivity. Qed.

Lemma ljust_nil w : ljust w [] = repeat space w.
Proof. unfold ljust. simpl. rewrite Nat.sub_0_r. reflexivity. Qed.

Lemma channel_line_inv biggest c line :
  channel_line draw listnodes biggest c = Ok line ->
  exists our their rest,
    bar_length (ch_to_us c) biggest = Ok our
    /\ bar_length (ch_to_them c) biggest = Ok their
    /\ line = fst (fst (line_graph draw our their))
              ++ [snd (fst (line_graph draw our their))]
              ++ snd (line_graph draw our their) ++ rest.
Proof.
  unfold channel_line. intros E.
  apply res_bind_inv in E. destruct E as (our & Ho & E).
  apply res_bind_inv in E. destruct E as (their & Ht & E).
  exists our, their.
  destruct (line_graph draw our their) as [[l m] r]. injection E as <-.
  eexists. split; [exact Ho|]. split; [exact Ht|].
  cbn [fst snd]. rewrite <- !app_assoc. reflexivity.
Qed.

(** Claim C4.  Every rendered line starts with the left segment, the
    midpoint glyph and the right segment, where with [our] and [their] the
    two bar lengths: the left segment is 23 spaces when [our] is 0 and else
    the left cap and [our - 1] bars right-justified in 23 columns; the right
    segment is 23 spaces when [their] is 0 and else [their - 1] bars and the
    right cap left-justified in 23 columns; the midpoint is the double left
    cap when only [our] is 0, the double right cap when only [their] is 0,
    the empty glyph when both are 0 and the plain midpoint otherwise. *)
Theorem channel_line_segments biggest c line :
  channel_line draw listnodes biggest c = Ok line ->
  exists our their l m r rest,
    bar_length (ch_to_us c) biggest = Ok our
    /\ bar_length (ch_to_them c) biggest = Ok their
    /\ line = l ++ [m] ++ r ++ rest
    /\ (our = 0 -> l = repeat space 23)
    /\ (our <> 0 -> l = rjust 23 ([left draw] ++ times (bar draw) (our - 1)))
    /\ (their = 0 -> r = repeat space 23)
    /\ (their <> 0 -> r = ljust 23 (times (bar draw) (their - 1) ++ [right draw]))
    /\ (our = 0 -> their <> 0 -> m = double_left draw)
    /\ (their = 0 -> our <> 0 -> m = double_right draw)
    /\ (our = 0 -> their = 0 -> m = empty draw)
    /\ (our <> 0 -> their <> 0 -> m = mid draw).
Proof.
  intros E. destruct (channel_line_inv biggest c line E) as (our & their & rest & Ho & Ht & ->).
  exists our, their. do 3 eexists. exists rest.
  split; [exact Ho|]. split; [exact Ht|]. split; [reflexivity|].
  unfold line_graph.
  destruct (Z.eqb_spec our 0) as [Eo|No]; destruct (Z.eqb_spec their 0) as [Et|Nt];
    cbn [fst snd]; rewrite ?rjust_nil, ?ljust_nil;
    repeat split; intros; first [reflexivity | congruence].
Qed.

Lemma bar_length_0_1000 : bar_length 0 1000 = Ok 0.
Proof. vm_compute. reflexivity. Qed.

Lemma bar_length_1000_1000 : bar_length 1000 1000 = Ok 23.
Proof. vm_compute. reflexivity. Qed.

(** Claim C3, amended.  With [biggest = 1000], nothing on our side and 1000
    on theirs the line starts with 23 spaces, then the double left cap as
    midpoint, then 22 bars and the right cap. *)
Theorem all_theirs_line c :
  ch_to_us c = 0 -> ch_to_them c = 1000 ->
  exists rest,
    channel_line draw listnodes 1000 c =
    Ok (repeat space 23 ++ [double_left draw]
        ++ (repeat (bar draw) 22 ++ [right draw]) ++ rest).
Proof.
  intros Hu Ht. unfold channel_line.
  rewrite Hu, Ht, bar_length_0_1000, bar_length_1000_1000, !bind_ok.
  cbn [line_graph Z.eqb]. rewrite rjust_nil.
  eexists. rewrite <- !app_assoc. reflexivity.
Qed.

End WithLib.

(** Claim C1, refuted as stated.  One connected peer with two channels in
    the normal state: [num_connected] is 2, the daemon reports one
    connected peer. *)
Lemma num_connected_not_peer_count :
  (r ← summary (H := cpython) draw_ascii (fun _ => []) 0 []
         [peer_two_channels] (ExcludeStr "") ∅;
   Ok (r_num_connected (fst r))) = Ok 2
  /\ connected_peers [peer_two_channels] = 1.
Proof. split; vm_compute; reflexivity. Qed.

(** Claim C8, refuted as stated.  The same peers with and without the
    exclusion of "1x1x1": [num_connected] is 2 without and 1 with it. *)
Lemma num_connected_depends_on_exclusion :
  (r ← summary (H := cpython) draw_ascii (fun _ => []) 0 []
         [peer_two_channels] (ExcludeList []) ∅;
   Ok (r_num_connected (fst r))) = Ok 2
  /\ (r ← summary (H := cpython) draw_ascii (fun _ => []) 0 []
           [peer_two_channels] (ExcludeList ["1x1x1"%string]) ∅;
      Ok (r_num_connected (fst r))) = Ok 1.
Proof. split; vm_compute; reflexivity. Qed.

(** Claim C9, refuted as stated.  A channel with both sides at their
    reserves: the report raises ValueError, from the header, and not
    ZeroDivisionError. *)
Lemma zero_balances_raise_in_header :
  summary (H := cpython) draw_ascii (fun _ => []) 0 []
    [peer_reserved] (ExcludeStr "") ∅ = Raise ValueError
  /\ summary (H := cpython) draw_ascii (fun _ => []) 0 []
       [peer_reserved] (ExcludeStr "") ∅ <> Raise ZeroDivisionError.
Proof.
  assert (E : summary (H := cpython) draw_ascii (fun _ => []) 0 []
    [peer_reserved] (ExcludeStr "") ∅ = Raise ValueError) by (vm_compute; reflexivity).
  rewrite E. split; [reflexivity | discriminate].
Qed.

(** Claim C3, refuted as stated.  With the UTF-8 alphabet the 24th
    character of that line is the double left cap, which is not the double
    right cap. *)
Lemma all_theirs_midpoint_is_double_left :
  (line ← channel_line (H := cpython) draw_utf8 (fun _ => []) 1000 rec_all_theirs;
   Ok (nth 23 line space)) = Ok (double_left draw_utf8)
  /\ (line ← channel_line (H := cpython) draw_utf8 (fun _ => []) 1000 rec_all_theirs;
      Ok (nth 23 line space)) <> Ok (double_right draw_utf8).
Proof.
  assert (E : (line ← channel_line (H := cpython) draw_utf8 (fun _ => []) 1000 rec_all_theirs;
   Ok (nth 23 line space)) = Ok (double_left draw_utf8)) by (vm_compute; reflexivity).
  rewrite E. split; [reflexivity | discriminate].
Qed.

End ReportFacts.

(* ===================================================================== *)
(** * The theorems at concrete inputs *)
(* ===================================================================== *)

(** 1.5 BTC in msat is rendered as "1.5btc": the candidates are "1.5btc",
    "1.5e+08sat" and "1.5e+11msat", and a fourth digit changes nothing. *)
Example msat_to_approx_str_btc :
  msat_to_approx_str (H := cpython) 150000000000 3 = Ok (Some "1.5btc"%string).
Proof. vm_compute. reflexivity. Qed.

(** 123456789 msat: the candidate stays nine characters long up to six
    digits and repeats at seven. *)
Example msat_to_approx_str_sat :
  msat_to_approx_str (H := cpython) 123456789 3 = Ok (Some "123457sat"%string).
Proof. vm_compute. reflexivity. Qed.

(** Half of the largest amount is eleven and a half columns, rounded to the
    even twelve. *)
Example bar_length_half : bar_length 500 1000 = Ok 12.
Proof. vm_compute. reflexivity. Qed.

(** After a first iteration that sees "A" connected and a second that sees
    it disconnected, "A" holds 0.5. *)
Lemma availability_in_unit_interval_witness :
  (0 <= 1 # 2)%Q /\ (1 # 2 <= 1)%Q.
Proof.
  apply (availability_in_unit_interval
           [ EvTick 0 (Some [ {| p_id := "A"; p_connected := true;
                                 p_channels := [] |} ]);
             EvTick 300 (Some [ {| p_id := "A"; p_connected := false;
                                   p_channels := [] |} ]) ]
           "A"
           {| connected := false; last_seen := Some 0;
              availability := 1 # 2 |}).
  vm_compute. reflexivity.
Defined.

Lemma first_tick_exact_witness :
  leadwin (count sampler_init + 1) = interval /\
  alpha (count sampler_init + 1) = 1%Q /\
  exists e,
    peerstate (PeerThread_tick 0 (Some [peer_two_channels]) sampler_init)
      !! "02aa" = Some e
    /\ connected e = p_connected peer_two_channels
    /\ availability e = if p_connected peer_two_channels then 1%Q else 0%Q.
Proof.
  apply (first_tick_exact 0 [peer_two_channels] sampler_init "02aa"
           peer_two_channels); reflexivity.
Defined.

Lemma tick_smooths_with_global_count_witness :
  (exists e,
     peerstate (PeerThread_tick 0 (Some [peer_two_channels]) sampler_init)
       !! p_id peer_two_channels = Some e
     /\ availability e
        = smooth (count sampler_init + 1) (p_connected peer_two_channels)
                 (prior peer_two_channels (peerstate sampler_init)))
  /\ (863 <= count sampler_init ->
      smooth (count sampler_init + 1) = smooth 864).
Proof.
  apply (tick_smooths_with_global_count 0 [peer_two_channels] sampler_init
           peer_two_channels).
  - simpl. tauto.
  - simpl. repeat constructor. simpl. tauto.
Defined.


Lemma num_connected_counts_channels_witness :
  exists r st',
    summary (H := cpython) draw_ascii (fun _ => []) 0 []
      [peer_two_channels] (ExcludeStr "") ∅ = Ok (r, st')
    /\ r_num_connected r = connected_channels (ExcludeStr "") [peer_two_channels].
Proof.
  destruct (summary (H := cpython) draw_ascii (fun _ => []) 0 []
              [peer_two_channels] (ExcludeStr "") ∅) as [[r st']| |] eqn:E.
  - exists r, st'. split; [reflexivity|].
    exact (num_connected_counts_channels (H := cpython) draw_ascii (fun _ => [])
             0 [] [peer_two_channels] (ExcludeStr "") ∅ r st' E).
  - vm_compute in E. discriminate E.
  - vm_compute in E. discriminate E.
Defined.

Lemma exclusion_frame_witness :
  exists r st' recs,
    summary (H := cpython) draw_ascii (fun _ => []) 0 []
      [peer_two_channels] (ExcludeList []) ∅ = Ok (r, st')
    /\ records (ExcludeList []) 0 [peer_two_channels] ∅ = Ok recs
    /\ render (H := cpython) draw_ascii (fun _ => []) recs = Ok (r_channels r)
    /\ summary (H := cpython) draw_ascii (fun _ => []) 0 []
         [peer_two_channels] (ExcludeList ["1x1x1"%string]) ∅ =
       (channels ← render (H := cpython) draw_ascii (fun _ => [])
                     (without_scid "1x1x1" recs);
        Ok ({| r_num_utxos := r_num_utxos r;
               r_utxo_amount := r_utxo_amount r;
               r_avail_out :=
                 r_avail_out r - sum_of ch_to_us (with_scid "1x1x1" recs);
               r_avail_in :=
                 r_avail_in r - sum_of ch_to_them (with_scid "1x1x1" recs);
               r_num_channels :=
                 r_num_channels r - Z.of_nat (length (with_scid "1x1x1" recs));
               r_num_connected :=
                 r_num_connected r
                 - count_of ch_connected (with_scid "1x1x1" recs);
               r_num_gossipers := r_num_gossipers r;
               r_channels := channels |},
            st')).
Proof.
  destruct (summary (H := cpython) draw_ascii (fun _ => []) 0 []
              [peer_two_channels] (ExcludeList []) ∅) as [[r st']| |] eqn:E.
  - destruct (exclusion_frame (H := cpython) draw_ascii (fun _ => []) 0 []
                [peer_two_channels] [] "1x1x1" ∅ r st' E) as (recs & H1 & H2 & H3).
    exists r, st', recs. split; [reflexivity|]. split; [exact H1|].
    split; [exact H2 | exact H3].
  - vm_compute in E. discriminate E.
  - vm_compute in E. discriminate E.
Defined.

Lemma zero_balances_fail_witness :
  exists st' t,
    collect (ExcludeStr "") 0 [peer_reserved] ∅ = Ok (st', t)
    /\ chans t <> []
    /\ render (H := cpython) draw_ascii (fun _ => []) (chans t) = Raise ValueError
    /\ summary (H := cpython) draw_ascii (fun _ => []) 0 []
         [peer_reserved] (ExcludeStr "") ∅ = Raise ValueError
    /\ forall c, channel_line (H := cpython) draw_ascii (fun _ => []) 0 c
                 = Raise ZeroDivisionError.
Proof.
  destruct (collect (ExcludeStr "") 0 [peer_reserved] ∅) as [[st' t]| |] eqn:E.
  - assert (Ht : chans t <> [] /\
                 Forall (fun r => ch_to_us r = 0 /\ ch_to_them r = 0) (chans t)).
    { vm_compute in E. injection E as <- <-. split; [discriminate|].
      repeat constructor. }
    destruct Ht as [Hne Hz].
    exists st', t. split; [reflexivity|]. split; [exact Hne|].
    exact (zero_balances_fail (H := cpython) draw_ascii (fun _ => []) 0 []
             [peer_reserved] (ExcludeStr "") ∅ st' t E Hne Hz).
  - vm_compute in E. discriminate E.
  - vm_compute in E. discriminate E.
Defined.

Lemma channel_line_segments_witness :
  exists line our their l m r rest,
    channel_line (H := cpython) draw_utf8 (fun _ => []) 1000 rec_all_theirs
      = Ok line
    /\ bar_length (ch_to_us rec_all_theirs) 1000 = Ok our
    /\ bar_length (ch_to_them rec_all_theirs) 1000 = Ok their
    /\ line = l ++ [m] ++ r ++ rest
    /\ (our = 0 -> l = repeat space 23)
    /\ (our <> 0 ->
        l = rjust 23 ([left draw_utf8] ++ times (bar draw_utf8) (our - 1)))
    /\ (their = 0 -> r = repeat space 23)
    /\ (their <> 0 ->
        r = ljust 23 (times (bar draw_utf8) (their - 1) ++ [right draw_utf8]))
    /\ (our = 0 -> their <> 0 -> m = double_left draw_utf8)
    /\ (their = 0 -> our <> 0 -> m = double_right draw_utf8)
    /\ (our = 0 -> their = 0 -> m = empty draw_utf8)
    /\ (our <> 0 -> their <> 0 -> m = mid draw_utf8).
Proof.
  destruct (channel_line (H := cpython) draw_utf8 (fun _ => []) 1000
              rec_all_theirs) as [line| |] eqn:E.
  - destruct (channel_line_segments (H := cpython) draw_utf8 (fun _ => [])
                1000 rec_all_theirs line E)
      as (our & their & l & m & r & rest & Hrest).
    exists line, our, their, l, m, r, rest. split; [reflexivity | exact Hrest].
  - vm_compute in E. discriminate E.
  - vm_compute in E. discriminate E.
Defined.

Lemma all_theirs_line_witness :
  exists rest,
    channel_line (H := cpython) draw_utf8 (fun _ => []) 1000 rec_all_theirs =
    Ok (repeat space 23 ++ [double_left draw_utf8]
        ++ (repeat (bar draw_utf8) 22 ++ [right draw_utf8]) ++ rest).
Proof.
  apply (all_theirs_line (H := cpython) draw_utf8 (fun _ => []) rec_all_theirs);
    reflexivity.
Defined.

(* ===================================================================== *)
(** * More about the estimator *)
(* ===================================================================== *)

Section FloatValues.
Local Open Scope Q_scope.

Lemma fl_canonical x : Qred (fl x) = fl x.
Proof.
  unfold fl. destruct (Qeq_bool x 0); [reflexivity | apply Qred_complete, Qred_correct].
Qed.

Lemma fl_eq_of_Qeq x y : fl x == y -> Qred y = y -> fl x = y.
Proof.
  intros E Hy. rewrite <- fl_canonical, <- Hy. apply Qred_complete, E.
Qed.

Lemma flog2_pow2 e : flog2 (pow2 e) = e.
Proof.
  apply flog2_unique; [apply Qle_refl|].
  apply Qpower_lt_compat_l; [lia | reflexivity].
Qed.

Lemma fl_idem x : 0 <= x -> fl (fl x) = fl x.
Proof.
  intros Hx. destruct (Qeq_bool x 0) eqn:E0.
  { apply Qeq_bool_iff in E0. rewrite (fl_eq0 x E0). reflexivity. }
  assert (Hp : 0 < x).
  { apply Qle_lteq in Hx. destruct Hx as [Hx|Hx]; [exact Hx|].
    symmetry in Hx. apply Qeq_bool_iff in Hx. congruence. }
  apply fl_eq_of_Qeq; [|apply fl_canonical].
  pose proof (fl_nonneg x Hx) as Hy0.
  destruct (Qeq_bool (fl x) 0) eqn:Ey.
  { unfold fl at 1. rewrite Ey. apply Qeq_bool_iff in Ey. symmetry. exact Ey. }
  assert (Hyp : 0 < fl x).
  { apply Qle_lteq in Hy0. destruct Hy0 as [H|H]; [exact H|].
    symmetry in H. apply Qeq_bool_iff in H. congruence. }
  set (e := Z.max (flog2 x) (-1022)).
  pose proof (fl_le_pow2 x Hp) as Hup. fold e in Hup.
  pose proof (fl_pos_val x Hp) as Hv. fold e in Hv.
  set (m := rne (x * pow2 (52 - e))) in *.
  assert (Hlow : (e <= Z.max (flog2 (fl x)) (-1022))%Z).
  { destruct (Z_le_gt_dec (-1022) (flog2 x)) as [Hn|Hs].
    - assert (He : e = flog2 x) by (unfold e; lia).
      pose proof (fl_ge_pow2 x Hp Hn) as Hge.
      pose proof (flog2_mono (pow2 (flog2 x)) (fl x) (pow2_pos _) Hge) as Hm.
      rewrite flog2_pow2 in Hm. lia.
    - unfold e. lia. }
  rewrite (fl_pos_val (fl x) Hyp).
  apply Qle_lteq in Hup. destruct Hup as [Hlt|Heq].
  - assert (Hf : (flog2 (fl x) < e + 1)%Z).
    { apply pow2_lt_inv. eapply Qle_lt_trans; [|exact Hlt].
      apply (flog2_spec (fl x) Hyp). }
    assert (Ee : Z.max (flog2 (fl x)) (-1022) = e) by (unfold e in *; lia).
    rewrite Ee.
    assert (Hs : fl x * pow2 (52 - e) == inject_Z m).
    { rewrite Hv, <- Qmult_assoc, <- pow2_add.
      replace (- (52 - e) + (52 - e))%Z with 0%Z by lia.
      change (pow2 0) with 1. apply Qmult_1_r. }
    rewrite (rne_comp _ _ Hs), rne_inject. symmetry. exact Hv.
  - assert (Hf : flog2 (fl x) = (e + 1)%Z).
    { apply flog2_unique; [rewrite Heq; apply Qle_refl|].
      rewrite Heq. apply Qpower_lt_compat_l; [lia | reflexivity]. }
    assert (Ee : Z.max (flog2 (fl x)) (-1022) = (e + 1)%Z) by (unfold e in *; lia).
    rewrite Ee.
    assert (Hs : fl x * pow2 (52 - (e + 1)) == inject_Z (2 ^ 52)).
    { rewrite Heq, <- pow2_add, <- pow2_inject by lia.
      replace (e + 1 + (52 - (e + 1)))%Z with 52%Z by lia. reflexivity. }
    rewrite (rne_comp _ _ Hs), rne_inject, Heq.
    rewrite <- pow2_inject by lia. rewrite <- pow2_add.
    replace (52 + - (52 - (e + 1)))%Z with (e + 1)%Z by lia. reflexivity.
Qed.

End FloatValues.

Section EstimatorExtras.

Lemma stays_one_table : forallb stays_one (map Z.of_nat (seq 1 864)) = true.
Proof. vm_compute. reflexivity. Qed.

Lemma smooth_leadwin c k : leadwin c = leadwin k -> smooth c = smooth k.
Proof.
  intros E. unfold smooth. rewrite (alpha_leadwin c k E), (beta_leadwin c k E).
  reflexivity.
Qed.

Lemma smooth_one c : smooth c true 1 = 1%Q.
Proof.
  destruct (leadwin_cases c) as (k & Hk & E). rewrite (smooth_leadwin c k E).
  pose proof stays_one_table as T. rewrite forallb_forall in T.
  assert (Hs : stays_one k = true).
  { apply T, in_map_iff. exists (Z.to_nat k). split; [lia | apply in_seq; lia]. }
  unfold stays_one in Hs. destruct (smooth k true 1) as [n d].
  apply andb_true_iff in Hs. destruct Hs as [Hn Hd].
  apply Z.eqb_eq in Hn. apply Pos.eqb_eq in Hd. subst. reflexivity.
Qed.

Lemma smooth_zero c : smooth c false 0 = 0%Q.
Proof.
  unfold smooth, fadd, fmul.
  rewrite (fl_eq0 (0 * alpha c)), (fl_eq0 (0 * beta c)) by ring. reflexivity.
Qed.

Lemma smooth_steady c (b : bool) :
  smooth c b (if b then 1 else 0)%Q = (if b then 1 else 0)%Q.
Proof. destruct b; [apply smooth_one | apply smooth_zero]. Qed.

(** Property X1.  An iteration of the sampler leaves alone every entry
    whose id is not in the answer of [listpeers]; when the call fails it
    leaves the whole dict alone.  The loop counter advances in both
    cases. *)
Theorem tick_leaves_unlisted_alone (now : Z) (listpeers : option (list Peer))
    (s : Sampler) (pid : string) :
  (forall peers, listpeers = Some peers -> ~ In pid (map p_id peers)) ->
  peerstate (PeerThread_tick now listpeers s) !! pid = peerstate s !! pid
  /\ count (PeerThread_tick now listpeers s) = count s + 1.
Proof.
  intros Hn. split; [|reflexivity].
  destruct listpeers as [peers|]; simpl; [|reflexivity].
  apply fold_update_notin, Hn. reflexivity.
Qed.

Lemma addpeer_is_Some now p st pid :
  is_Some (st !! pid) \/ pid = p_id p -> is_Some (addpeer now p st !! pid).
Proof.
  intros Hs. destruct (decide (pid = p_id p)) as [->|Hne].
  - destruct (addpeer_lookup_eq now p st) as (e & -> & _). eauto.
  - rewrite addpeer_lookup_ne by exact Hne. destruct Hs; [assumption | contradiction].
Qed.

Lemma update_peer_is_Some c now p st pid :
  is_Some (st !! pid) \/ pid = p_id p -> is_Some (update_peer c now p st !! pid).
Proof.
  intros Hs. destruct (decide (pid = p_id p)) as [->|Hne].
  - destruct (update_peer_lookup_eq c now p st) as (e & -> & _). eauto.
  - rewrite update_peer_lookup_ne by exact Hne. destruct Hs; [assumption | contradiction].
Qed.

Lemma fold_is_Some (f : Peer -> gmap string PeerState -> gmap string PeerState)
    peers st pid :
  (forall p st, is_Some (st !! pid) \/ pid = p_id p -> is_Some (f p st !! pid)) ->
  is_Some (st !! pid) \/ In pid (map p_id peers) ->
  is_Some (fold_left (fun st p => f p st) peers st !! pid).
Proof.
  intros Hf. revert st. induction peers as [|q l IH]; simpl; intros st Hs.
  - destruct Hs; [assumption | contradiction].
  - apply IH. destruct Hs as [Hs|[Hq|Hl]].
    + left. apply Hf. left. exact Hs.
    + left. apply Hf. right. symmetry. exact Hq.
    + right. exact Hl.
Qed.

Lemma step_is_Some ev s pid :
  is_Some (peerstate s !! pid) \/ In pid (map p_id (reports ev)) ->
  is_Some (peerstate (step ev s) !! pid).
Proof.
  intros Hs. destruct ev as [now [peers|]|now peers]; simpl in *.
  - apply (fold_is_Some (update_peer (count s + 1) now)); [|exact Hs].
    intros. apply update_peer_is_Some. assumption.
  - destruct Hs; [assumption | contradiction].
  - apply (fold_is_Some (addpeer now)); [|exact Hs].
    intros. apply addpeer_is_Some. assumption.
Qed.

(** Property X2.  Every peer in the answer an iteration of the sampler
    gets from [listpeers] has an entry once the iteration is over, and an
    entry once made is there after any further iterations and report
    requests: nothing removes one. *)
Theorem tracked_peers_persist :
  (forall now peers s p,
      In p peers ->
      is_Some (peerstate (PeerThread_tick now (Some peers) s) !! p_id p))
  /\ (forall events s pid,
        is_Some (peerstate s !! pid) ->
        is_Some (peerstate (process events s) !! pid)).
Proof.
  split.
  - intros now peers s p Hin.
    apply (step_is_Some (EvTick now (Some peers))). right. apply in_map, Hin.
  - intros events. induction events as [|ev events IH]; simpl; intros s pid Hs;
      [exact Hs|]. apply IH, step_is_Some. left. exact Hs.
Qed.

Lemma addpeer_steady now p st pid b :
  (p_id p = pid -> p_connected p = b) -> steady pid b st ->
  steady pid b (addpeer now p st).
Proof.
  intros Hb Hs e. destruct (decide (pid = p_id p)) as [->|Hne].
  - destruct (addpeer_lookup_eq now p st) as (e' & -> & Ea). intros [= <-].
    rewrite Ea. unfold prior. destruct (st !! p_id p) as [e0|] eqn:E0.
    + apply Hs, E0.
    + rewrite (Hb eq_refl). reflexivity.
  - rewrite addpeer_lookup_ne by exact Hne. apply Hs.
Qed.

Lemma update_peer_steady c now p st pid b :
  (p_id p = pid -> p_connected p = b) -> steady pid b st ->
  steady pid b (update_peer c now p st).
Proof.
  intros Hb Hs e. destruct (decide (pid = p_id p)) as [->|Hne].
  - destruct (update_peer_lookup_eq c now p st) as (e' & -> & _ & Ea). intros [= <-].
    rewrite Ea, (Hb eq_refl).
    assert (Hp : prior p st = (if b then 1 else 0)%Q).
    { unfold prior. destruct (st !! p_id p) as [e0|] eqn:E0.
      - apply Hs, E0.
      - rewrite (Hb eq_refl). reflexivity. }
    rewrite Hp. apply smooth_steady.
  - rewrite update_peer_lookup_ne by exact Hne. apply Hs.
Qed.

Lemma fold_steady (f : Peer -> gmap string PeerState -> gmap string PeerState)
    peers st pid b :
  (forall p st, (p_id p = pid -> p_connected p = b) -> steady pid b st ->
                steady pid b (f p st)) ->
  Forall (fun p => p_id p = pid -> p_connected p = b) peers ->
  steady pid b st -> steady pid b (fold_left (fun st p => f p st) peers st).
Proof.
  intros Hf Hall. revert st. induction Hall as [|q l Hq _ IH]; simpl; intros st Hs;
    [exact Hs | apply IH, Hf; assumption].
Qed.

Lemma step_steady ev s pid b :
  Forall (fun p => p_id p = pid -> p_connected p = b) (reports ev) ->
  steady pid b (peerstate s) -> steady pid b (peerstate (step ev s)).
Proof.
  intros Hall Hs. destruct ev as [now [peers|]|now peers]; simpl in *.
  - apply (fold_steady (update_peer (count s + 1) now)); try assumption.
    intros. apply update_peer_steady; assumption.
  - exact Hs.
  - apply (fold_steady (addpeer now)); try assumption.
    intros. apply addpeer_steady; assumption.
Qed.

(** Property X3.  A peer that every iteration and every report request
    found in the same connection state holds exactly 1.0 when that state is
    connected and exactly 0.0 when it is not, at any age of the sampler. *)
Theorem steady_peer_is_exact (events : list Event) (pid : string) (b : bool)
    (e : PeerState) :
  reported_as pid b events ->
  peerstate (process events sampler_init) !! pid = Some e ->
  availability e = (if b then 1 else 0)%Q.
Proof.
  intros Hall. 
  assert (Hs : steady pid b (peerstate sampler_init)).
  { intros e0. simpl. rewrite lookup_empty. discriminate. }
  revert Hs. generalize sampler_init as s. revert e.
  induction Hall as [|ev events Hev _ IH]; simpl; intros e s Hs He.
  - apply Hs, He.
  - apply (IH e (step ev s)); [|exact He]. apply step_steady; assumption.
Qed.


Lemma is_float_seed (b : bool) : is_float (if b then 1 else 0)%Q.
Proof. destruct b; reflexivity. Qed.

Lemma smooth_is_float c b a : in_unit a -> is_float (smooth c b a).
Proof.
  intros [Ha0 Ha1]. unfold is_float, smooth, fadd. apply fl_idem.
  pose proof (constants_ok_all c) as Hc. unfold constants_ok in Hc.
  rewrite !andb_true_iff in Hc. destruct Hc as [[[Hal Hb0] _] _].
  apply Qle_bool_iff in Hal, Hb0.
  assert (H1 : (0 <= fmul (if b then 1 else 0) (alpha c))%Q).
  { apply fl_nonneg. apply Qmult_le_0_compat; [destruct b; discriminate | exact Hal]. }
  assert (H2 : (0 <= fmul a (beta c))%Q).
  { apply fl_nonneg. apply Qmult_le_0_compat; assumption. }
  lra.
Qed.

Lemma addpeer_float now p st : float_state st -> float_state (addpeer now p st).
Proof.
  intros Hf pid e. destruct (decide (pid = p_id p)) as [->|Hne].
  - destruct (addpeer_lookup_eq now p st) as (e' & -> & Ea). intros [= <-].
    rewrite Ea. unfold prior. destruct (st !! p_id p) eqn:E0.
    + eapply Hf, E0.
    + apply is_float_seed.
  - rewrite addpeer_lookup_ne by exact Hne. apply Hf.
Qed.

Lemma prior_in_unit p st : wf st -> in_unit (prior p st).
Proof.
  intros Hw. unfold prior. destruct (st !! p_id p) eqn:E0;
    [eapply Hw, E0 | apply in_unit_seed].
Qed.

Lemma prior_is_float p st : float_state st -> is_float (prior p st).
Proof.
  intros Hf. unfold prior. destruct (st !! p_id p) eqn:E0;
    [eapply Hf, E0 | apply is_float_seed].
Qed.

Lemma update_peer_float c now p st :
  wf st -> float_state st -> float_state (update_peer c now p st).
Proof.
  intros Hw Hf pid e. destruct (decide (pid = p_id p)) as [->|Hne].
  - destruct (update_peer_lookup_eq c now p st) as (e' & -> & _ & Ea). intros [= <-].
    rewrite Ea. apply smooth_is_float, prior_in_unit, Hw.
  - rewrite update_peer_lookup_ne by exact Hne. apply Hf.
Qed.

Lemma fold_wf_float (f : Peer -> gmap string PeerState -> gmap string PeerState)
    peers st :
  (forall p st, wf st /\ float_state st -> wf (f p st) /\ float_state (f p st)) ->
  wf st /\ float_state st ->
  wf (fold_left (fun st p => f p st) peers st)
  /\ float_state (fold_left (fun st p => f p st) peers st).
Proof.
  intros Hf. revert st. induction peers as [|q l IH]; simpl; intros st Hs;
    [exact Hs | apply IH, Hf, Hs].
Qed.

Lemma step_wf_float ev s :
  wf (peerstate s) /\ float_state (peerstate s) ->
  wf (peerstate (step ev s)) /\ float_state (peerstate (step ev s)).
Proof.
  intros Hs. destruct ev as [now [peers|]|now peers]; simpl.
  - apply (fold_wf_float (update_peer (count s + 1) now)); [|exact Hs].
    intros p st [Hw Hf]. split; [apply update_peer_wf, Hw | apply update_peer_float; assumption].
  - exact Hs.
  - apply (fold_wf_float (addpeer now)); [|exact Hs].
    intros p st [Hw Hf]. split; [apply addpeer_wf, Hw | apply addpeer_float, Hf].
Qed.

Lemma process_wf_float events s :
  wf (peerstate s) /\ float_state (peerstate s) ->
  wf (peerstate (process events s)) /\ float_state (peerstate (process events s)).
Proof.
  revert s. induction events as [|ev events IH]; simpl; intros s Hs;
    [exact Hs | apply IH, step_wf_float, Hs].
Qed.

Lemma reachable_wf_float events :
  wf (peerstate (process events sampler_init))
  /\ float_state (peerstate (process events sampler_init)).
Proof.
  apply process_wf_float. split; intros pid e; simpl; rewrite lookup_empty; discriminate.
Qed.

Lemma smooth_false_le c a : in_unit a -> is_float a -> (smooth c false a <= a)%Q.
Proof.
  intros [Ha0 Ha1] Hfa. unfold is_float in Hfa.
  pose proof (constants_ok_all c) as Hc. unfold constants_ok in Hc.
  rewrite !andb_true_iff in Hc. destruct Hc as [[[_ Hb0] Hb1] _].
  apply Qle_bool_iff in Hb0, Hb1.
  unfold smooth, fadd, fmul. rewrite (fl_eq0 (0 * alpha c)) by ring.
  assert (Hab0 : (0 <= a * beta c)%Q) by (apply Qmult_le_0_compat; assumption).
  assert (Hab1 : (a * beta c <= a)%Q).
  { assert (Hx : (beta c * a <= 1 * a)%Q) by (apply Qmult_le_compat_r; assumption).
    lra. }
  pose proof (fl_nonneg _ Hab0) as H1.
  pose proof (fl_mono _ _ Hab0 Hab1) as H2. rewrite Hfa in H2.
  rewrite <- Hfa at 2. apply fl_mono; lra.
Qed.

(** Property X4.  In any state the process can reach, an iteration that
    finds a peer disconnected never raises its availability: the new value
    is at most the stored one (the seed for a new peer). *)
Theorem disconnected_sample_never_raises (events : list Event) (now : Z)
    (peers : list Peer) (p : Peer) :
  In p peers -> List.NoDup (map p_id peers) -> p_connected p = false ->
  exists e,
    peerstate (PeerThread_tick now (Some peers) (process events sampler_init))
      !! p_id p = Some e
    /\ (availability e <= prior p (peerstate (process events sampler_init)))%Q.
Proof.
  intros Hin Hnd Hc.
  destruct (reachable_wf_float events) as [Hw Hf].
  destruct (fold_update_nodup (count (process events sampler_init) + 1) now peers
              (peerstate (process events sampler_init)) p Hin Hnd)
    as (e & He & _ & Ha).
  exists e. split; [exact He|]. rewrite Ha, Hc.
  apply smooth_false_le; [apply prior_in_unit, Hw | apply prior_is_float, Hf].
Qed.

Lemma Qinv_le a b : (0 < a)%Q -> (a <= b)%Q -> (/ b <= / a)%Q.
Proof.
  intros Ha Hab. apply Qle_lteq in Hab. destruct Hab as [Hlt|Heq].
  - apply Qlt_le_weak. apply (Qinv_lt_contravar a b); [exact Ha | | exact Hlt].
    eapply Qlt_trans; eassumption.
  - rewrite Heq. apply Qle_refl.
Qed.

Lemma samples_first : samples 1 = 1%Q.
Proof. vm_compute. reflexivity. Qed.

Lemma samples_mono a b : leadwin a <= leadwin b -> (samples a <= samples b)%Q.
Proof.
  intros Hl. unfold samples. 
  assert (H0 : (0 <= inject_Z (leadwin a))%Q).
  { change 0%Q with (inject_Z 0). rewrite <- Zle_Qle. unfold leadwin, interval. lia. }
  apply fl_mono.
  - apply Qmult_le_0_compat; [exact H0 | discriminate].
  - apply Qmult_le_compat_r; [|discriminate]. rewrite <- Zle_Qle. exact Hl.
Qed.

Lemma samples_ge_1 c : (1 <= samples c)%Q.
Proof.
  rewrite <- samples_first. apply samples_mono. unfold leadwin, window, interval. lia.
Qed.

Lemma alpha_antitone a b : leadwin a <= leadwin b -> (alpha b <= alpha a)%Q.
Proof.
  intros Hl. unfold alpha, fdiv.
  pose proof (samples_ge_1 a) as Ha. pose proof (samples_ge_1 b) as Hb.
  pose proof (samples_mono a b Hl) as Hab.
  assert (Hib : (0 <= / samples b)%Q) by (apply Qinv_le_0_compat; lra).
  apply fl_mono.
  - unfold Qdiv. rewrite Qmult_1_l. exact Hib.
  - unfold Qdiv. rewrite !Qmult_1_l. apply Qinv_le; [lra | exact Hab].
Qed.

Lemma alpha_le_1 c : (alpha c <= 1)%Q.
Proof.
  rewrite <- alpha_first. apply alpha_antitone. unfold leadwin, window, interval. lia.
Qed.

Lemma alpha_nonneg c : (0 <= alpha c)%Q.
Proof.
  unfold alpha, fdiv. apply fl_nonneg. unfold Qdiv. rewrite Qmult_1_l.
  apply Qinv_le_0_compat. pose proof (samples_ge_1 c). lra.
Qed.

(** Property X5.  The smoothing factor never grows and the retention factor
    never shrinks as the loop counter advances; alpha stays between its
    value for the full window, reached at iteration 864, and 1. *)
Theorem alpha_never_grows (c c' : Z) :
  c <= c' ->
  (alpha c' <= alpha c)%Q /\ (beta c <= beta c')%Q
  /\ (alpha 864 <= alpha c')%Q /\ (alpha c <= 1)%Q.
Proof.
  intros Hc.
  assert (Hl : leadwin c <= leadwin c') by (unfold leadwin, window, interval; lia).
  pose proof (alpha_antitone c c' Hl) as Ha.
  split; [exact Ha|]. split; [|split; [|apply alpha_le_1]].
  - unfold beta, fsub. pose proof (alpha_le_1 c). apply fl_mono; lra.
  - apply alpha_antitone. unfold leadwin, window, interval. lia.
Qed.

End EstimatorExtras.

(* ===================================================================== *)
(** * More about the report *)
(* ===================================================================== *)

Section ReportExtras.

Lemma Millisatoshi_ok v : 0 <= v -> Millisatoshi v = Ok v.
Proof. intros Hv. unfold Millisatoshi. destruct (Z.ltb_spec v 0); [lia | reflexivity]. Qed.

Lemma Millisatoshi_neg v : v < 0 -> Millisatoshi v = Raise ValueError.
Proof. intros Hv. unfold Millisatoshi. destruct (Z.ltb_spec v 0); [reflexivity | lia]. Qed.

Lemma chan_rec_ok st p c e :
  st !! p_id p = Some e -> overdrawn c = false ->
  chan_rec st p c =
  Ok {| ch_total := c_total_msat c; ch_to_us := owned_available c;
        ch_to_them := counterparty_available c; ch_peer := p_id p;
        ch_private := c_private c; ch_connected := p_connected p;
        ch_scid := c_short_channel_id c; ch_availability := availability e |}.
Proof.
  intros He Ho. unfold overdrawn in Ho. apply Z.ltb_ge in Ho.
  unfold chan_rec, msat_sub, owned_available, counterparty_available. rewrite He.
  assert (E1 : (if c_our_reserve_msat c <? c_to_us_msat c
                then Millisatoshi (c_to_us_msat c - c_our_reserve_msat c)
                else Millisatoshi 0)
               = Ok (Z.max 0 (c_to_us_msat c - c_our_reserve_msat c))).
  { destruct (Z.ltb_spec (c_our_reserve_msat c) (c_to_us_msat c)).
    - rewrite Millisatoshi_ok by lia. f_equal. lia.
    - rewrite Millisatoshi_ok by lia. f_equal. lia. }
  rewrite E1, bind_ok.
  rewrite (Millisatoshi_ok (c_total_msat c - c_to_us_msat c)), bind_ok by lia.
  assert (E2 : (if c_their_reserve_msat c <? c_total_msat c - c_to_us_msat c
                then Millisatoshi (c_total_msat c - c_to_us_msat c
                                   - c_their_reserve_msat c)
                else Millisatoshi 0)
               = Ok (Z.max 0 (c_total_msat c - c_to_us_msat c
                              - c_their_reserve_msat c))).
  { destruct (Z.ltb_spec (c_their_reserve_msat c) (c_total_msat c - c_to_us_msat c)).
    - rewrite Millisatoshi_ok by lia. f_equal. lia.
    - rewrite Millisatoshi_ok by lia. f_equal. lia. }
  rewrite E2, !bind_ok. reflexivity.
Qed.

Lemma chan_rec_overdrawn st p c :
  overdrawn c = true -> chan_rec st p c = Raise ValueError.
Proof.
  intros Ho. unfold overdrawn in Ho. apply Z.ltb_lt in Ho.
  unfold chan_rec, msat_sub.
  assert (E1 : exists u, (if c_our_reserve_msat c <? c_to_us_msat c
                then Millisatoshi (c_to_us_msat c - c_our_reserve_msat c)
                else Millisatoshi 0) = Ok u).
  { destruct (Z.ltb_spec (c_our_reserve_msat c) (c_to_us_msat c));
      rewrite Millisatoshi_ok by lia; eauto. }
  destruct E1 as [u ->]. rewrite bind_ok.
  rewrite (Millisatoshi_neg (c_total_msat c - c_to_us_msat c)) by lia. reflexivity.
Qed.

Lemma addpeer_lookup_Some now p st : exists e, addpeer now p st !! p_id p = Some e.
Proof. destruct (addpeer_lookup_eq now p st) as (e & He & _). eauto. Qed.

(** Outcome of the tuples of one peer. *)
Lemma mapM_chan_rec st p e cs :
  st !! p_id p = Some e ->
  (existsb overdrawn cs = false /\
   exists rs, mapM (chan_rec st p) cs = Ok rs
              /\ map ch_to_us rs = map owned_available cs
              /\ map ch_to_them rs = map counterparty_available cs)
  \/ (existsb overdrawn cs = true /\ mapM (chan_rec st p) cs = Raise ValueError).
Proof.
  intros He. induction cs as [|c cs IH]; cbn [existsb mapM map].
  - left. split; [reflexivity|]. exists []. repeat split.
  - destruct (overdrawn c) eqn:Ho.
    + right. split; [reflexivity|]. rewrite chan_rec_overdrawn by exact Ho. reflexivity.
    + rewrite (chan_rec_ok st p c e He Ho), bind_ok. cbn [orb].
      destruct IH as [(Hn & rs & Hrs & H1 & H2)|(Hy & Hr)].
      * left. split; [exact Hn|]. eexists. rewrite Hrs, !bind_ok.
        split; [reflexivity|]. cbn [map ch_to_us ch_to_them]. rewrite H1, H2. split; reflexivity.
      * right. split; [exact Hy|]. rewrite Hr. reflexivity.
Qed.

Lemma records_outcome E now peers st :
  (existsb overdrawn (eligible_channels E peers) = false /\
   exists recs, records E now peers st = Ok recs
                /\ map ch_to_us recs = map owned_available (eligible_channels E peers)
                /\ map ch_to_them recs
                   = map counterparty_available (eligible_channels E peers))
  \/ (existsb overdrawn (eligible_channels E peers) = true
      /\ records E now peers st = Raise ValueError).
Proof.
  revert st. induction peers as [|p peers IH]; intros st;
    cbn [records eligible_channels flat_map].
  - left. split; [reflexivity|]. exists []. repeat split.
  - fold (eligible_channels E peers). rewrite existsb_app, !map_app.
    destruct (addpeer_lookup_Some now p st) as [e He].
    destruct (mapM_chan_rec (addpeer now p st) p e
                (List.filter (eligible E) (p_channels p)) He)
      as [(Hn & rs & Hrs & H1 & H2)|(Hy & Hr)].
    + rewrite Hn, Hrs, bind_ok. cbn [orb].
      destruct (IH (addpeer now p st)) as [(Hn' & rest & Hrest & H1' & H2')|(Hy' & Hr')].
      * left. split; [exact Hn'|]. exists (rs ++ rest). rewrite Hrest, bind_ok.
        split; [reflexivity|]. rewrite !map_app, H1, H2, H1', H2'. split; reflexivity.
      * right. split; [exact Hy'|]. rewrite Hr'. reflexivity.
    + right. rewrite Hy, Hr. split; reflexivity.
Qed.

(** Property X6.  The loop of the report over the peers raises ValueError
    when some channel in the normal state and not excluded has
    [to_us_msat] above [total_msat], and succeeds otherwise; it never
    raises KeyError on the dict. *)
Theorem collect_outcome (E : Exclude) (now : Z) (peers : list Peer)
    (st : gmap string PeerState) :
  (existsb overdrawn (eligible_channels E peers) = false /\
   exists st' t, collect E now peers st = Ok (st', t))
  \/ (existsb overdrawn (eligible_channels E peers) = true /\
      collect E now peers st = Raise ValueError).
Proof.
  rewrite collect_closed.
  destruct (records_outcome E now peers st) as [(Hn & recs & Hr & _)|(Hy & Hr)].
  - left. split; [exact Hn|]. rewrite Hr, bind_ok. eauto.
  - right. split; [exact Hy|]. rewrite Hr. reflexivity.
Qed.


Lemma fl_comp x y : (0 <= x)%Q -> (x == y)%Q -> fl x = fl y.
Proof.
  intros Hx E. apply fl_eq_of_Qeq; [|apply fl_canonical].
  apply Qle_antisym; apply fl_mono; rewrite ?E; try apply Qle_refl.
  - rewrite <- E. exact Hx.
  - rewrite <- E. exact Hx.
Qed.

Lemma fl_23 : fl 23 = 23%Q.
Proof. vm_compute. reflexivity. Qed.

Lemma rne_23 : rne 23 = 23.
Proof. reflexivity. Qed.

Lemma ratio_unit a b :
  0 <= a <= b -> 0 < b -> (0 <= inject_Z a / inject_Z b)%Q /\ (inject_Z a / inject_Z b <= 1)%Q.
Proof.
  intros Ha Hb.
  assert (Hbq : (0 < inject_Z b)%Q) by (change 0%Q with (inject_Z 0); rewrite <- Zlt_Qlt; exact Hb).
  split.
  - apply Qle_shift_div_l; [exact Hbq|]. rewrite Qmult_0_l.
    change 0%Q with (inject_Z 0). rewrite <- Zle_Qle. lia.
  - apply Qle_shift_div_r; [exact Hbq|]. rewrite Qmult_1_l.
    rewrite <- Zle_Qle. lia.
Qed.

Lemma bar_length_value a b :
  b <> 0 -> bar_length a b = Ok (rne (fmul (fl (inject_Z a / inject_Z b)) 23)).
Proof.
  intros Hb. unfold bar_length, truediv.
  destruct (Z.eqb_spec b 0); [contradiction | reflexivity].
Qed.

Lemma scaled_mono x y :
  (0 <= x)%Q -> (x <= y)%Q -> rne (fmul (fl x) 23) <= rne (fmul (fl y) 23).
Proof.
  intros Hx Hxy. apply rne_mono. unfold fmul.
  pose proof (fl_nonneg x Hx) as H0. pose proof (fl_mono x y Hx Hxy) as H1.
  apply fl_mono; lra.
Qed.

Lemma scaled_one x : (x == 1)%Q -> rne (fmul (fl x) 23) = 23.
Proof.
  intros E. assert (Hx : (0 <= x)%Q) by (rewrite E; discriminate).
  rewrite (fl_comp x 1 Hx E), fl_one. unfold fmul.
  rewrite (fl_comp (1 * 23) 23) by (try discriminate; ring). rewrite fl_23. reflexivity.
Qed.

Lemma scaled_zero x : (x == 0)%Q -> rne (fmul (fl x) 23) = 0.
Proof.
  intros E. rewrite (fl_eq0 x E). unfold fmul. rewrite (fl_eq0 (0 * 23)) by ring.
  reflexivity.
Qed.

(** Property X9.  For a positive [biggest] the bar length of an amount
    between 0 and [biggest] lies between 0 and 23 and does not decrease
    when the amount grows; the amount 0 gives 0 and [biggest] itself the
    full 23 columns. *)
Theorem bar_length_scale (a a' b : Z) :
  0 <= a -> a <= a' -> a' <= b -> 0 < b ->
  exists n n',
    bar_length a b = Ok n /\ bar_length a' b = Ok n'
    /\ 0 <= n /\ n <= n' /\ n' <= 23
    /\ bar_length 0 b = Ok 0 /\ bar_length b b = Ok 23.
Proof.
  intros H0 H1 H2 Hb.
  assert (Hbq : (0 < inject_Z b)%Q)
    by (change 0%Q with (inject_Z 0); rewrite <- Zlt_Qlt; exact Hb).
  assert (Hbn : ~ (inject_Z b == 0)%Q) by (intros E; rewrite E in Hbq; discriminate).
  rewrite !bar_length_value by lia. do 2 eexists.
  split; [reflexivity|]. split; [reflexivity|].
  destruct (ratio_unit a b) as [Hal Hau]; [lia | lia |].
  destruct (ratio_unit a' b) as [Hal' Hau']; [lia | lia |].
  assert (E1 : (inject_Z b / inject_Z b == 1)%Q) by (field; exact Hbn).
  assert (E0 : (inject_Z 0 / inject_Z b == 0)%Q) by (field; exact Hbn).
  rewrite (scaled_zero _ E0), (scaled_one _ E1).
  repeat split.
  - pose proof (scaled_mono (inject_Z 0 / inject_Z b) (inject_Z a / inject_Z b)) as Hm.
    rewrite (scaled_zero _ E0) in Hm. apply Hm; rewrite E0; [discriminate | exact Hal].
  - apply scaled_mono; [exact Hal|].
    apply Qmult_le_compat_r; [rewrite <- Zle_Qle; lia | apply Qinv_le_0_compat, Qlt_le_weak, Hbq].
  - pose proof (scaled_mono (inject_Z a' / inject_Z b) (inject_Z b / inject_Z b)) as Hm.
    rewrite (scaled_one _ E1) in Hm. apply Hm; [exact Hal'|]. rewrite E1. exact Hau'.
Qed.

Lemma length_rjust w s : (length s <= w)%nat -> length (rjust w s) = w.
Proof. intros Hs. unfold rjust. rewrite length_app, repeat_length. lia. Qed.

Lemma length_ljust w s : (length s <= w)%nat -> length (ljust w s) = w.
Proof. intros Hs. unfold ljust. rewrite length_app, repeat_length. lia. Qed.

(** Bars of at most 23 columns give a graph of 47. *)
Lemma line_graph_width draw our their :
  0 <= our <= 23 -> 0 <= their <= 23 ->
  length (fst (fst (line_graph draw our their))) = 23%nat
  /\ length (snd (line_graph draw our their)) = 23%nat.
Proof.
  intros Ho Ht. unfold line_graph.
  destruct (Z.eqb_spec our 0); destruct (Z.eqb_spec their 0); cbn [fst snd]; split;
    first [ apply length_rjust | apply length_ljust ];
    unfold times; rewrite ?length_app, ?repeat_length; simpl; lia.
Qed.


Lemma mapM_Forall2_in {A B} (f : A -> res B) (P : A -> B -> Prop) l rs :
  (forall x r, In x l -> f x = Ok r -> P x r) -> mapM f l = Ok rs -> Forall2 P l rs.
Proof.
  revert rs. induction l as [|x l IH]; intros rs Hf; cbn [mapM].
  - intros [= <-]. constructor.
  - intros E. apply res_bind_inv in E. destruct E as (y & Hy & E).
    apply res_bind_inv in E. destruct E as (ys & Hys & E).
    injection E as <-. constructor.
    + apply (Hf x y); [left; reflexivity | exact Hy].
    + apply IH; [|exact Hys]. intros x' r' Hin. apply Hf. right. exact Hin.
Qed.

Lemma records_Forall (P : ChanRec -> Prop) E now peers st recs :
  (forall st p c r, chan_rec st p c = Ok r -> P r) ->
  records E now peers st = Ok recs -> Forall P recs.
Proof.
  intros HP. revert st recs. induction peers as [|p peers IH]; intros st recs;
    cbn [records].
  - intros [= <-]. constructor.
  - intros H. apply res_bind_inv in H. destruct H as (rs & Hrs & H).
    apply res_bind_inv in H. destruct H as (rest & Hrest & H).
    injection H as <-. apply Forall_app. split.
    + eapply mapM_Forall; [|exact Hrs]. intros c r. apply HP.
    + eapply IH, Hrest.
Qed.

Lemma fold_max_ge cs m :
  m <= fold_left (fun m c => Z.max m (Z.max (ch_to_us c) (ch_to_them c))) cs m
  /\ forall r, In r cs ->
       Z.max (ch_to_us r) (ch_to_them r)
       <= fold_left (fun m c => Z.max m (Z.max (ch_to_us c) (ch_to_them c))) cs m.
Proof.
  revert m. induction cs as [|c cs IH]; intros m; simpl.
  - split; [lia | contradiction].
  - destruct (IH (Z.max m (Z.max (ch_to_us c) (ch_to_them c)))) as [H1 H2].
    split; [lia|]. intros r [<-|Hin]; [lia | apply H2, Hin].
Qed.

Lemma biggest_of_ge c cs r :
  In r (c :: cs) ->
  ch_to_us r <= biggest_of c cs /\ ch_to_them r <= biggest_of c cs.
Proof.
  unfold biggest_of. intros Hin.
  destruct (fold_max_ge cs (Z.max (ch_to_us c) (ch_to_them c))) as [H1 H2].
  destruct Hin as [<-|Hin]; [lia|]. specialize (H2 r Hin). lia.
Qed.

Lemma fold_max_attained cs m :
  fold_left (fun m c => Z.max m (Z.max (ch_to_us c) (ch_to_them c))) cs m = m
  \/ Exists (fun c =>
               fold_left (fun m c => Z.max m (Z.max (ch_to_us c) (ch_to_them c))) cs m
               = Z.max (ch_to_us c) (ch_to_them c)) cs.
Proof.
  revert m. induction cs as [|c cs IH]; intros m; simpl; [left; reflexivity|].
  destruct (IH (Z.max m (Z.max (ch_to_us c) (ch_to_them c)))) as [E|E].
  - rewrite E. destruct (Z.max_spec m (Z.max (ch_to_us c) (ch_to_them c)))
      as [[_ ->]|[_ ->]]; [right; left; reflexivity | left; reflexivity].
  - right. right. exact E.
Qed.

(** The scale of the table is the larger amount of one of its tuples. *)
Lemma biggest_of_attained c cs :
  Exists (fun r => biggest_of c cs = Z.max (ch_to_us r) (ch_to_them r)) (c :: cs).
Proof.
  unfold biggest_of.
  destruct (fold_max_attained cs (Z.max (ch_to_us c) (ch_to_them c))) as [E|E].
  - left. exact E.
  - right. exact E.
Qed.

Lemma bar_length_in_range a b n :
  0 <= a <= b -> bar_length a b = Ok n -> 0 <= n <= 23.
Proof.
  intros Ha Hn.
  assert (Hb : b <> 0).
  { intros ->. discriminate Hn. }
  destruct (bar_length_scale a a b) as (n1 & n2 & E1 & E2 & B0 & B1 & B2 & _); try lia.
  rewrite Hn in E1. injection E1 as <-. lia.
Qed.

Lemma filter_idem {A} (f : A -> bool) l :
  List.filter f (List.filter f l) = List.filter f l.
Proof.
  induction l as [|x l IH]; simpl; [reflexivity|].
  destruct (f x) eqn:E; simpl; rewrite ?E, IH; reflexivity.
Qed.

Lemma filter_eligible_normal E cs :
  List.filter (eligible E) (List.filter normal cs) = List.filter (eligible E) cs.
Proof.
  induction cs as [|c cs IH]; simpl; [reflexivity|].
  destruct (normal c) eqn:N; simpl; rewrite IH; [reflexivity|].
  destruct (eligible E c) eqn:El; [|reflexivity].
  apply eligible_normal in El. congruence.
Qed.

Lemma existsb_filter_normal cs :
  existsb normal (List.filter normal cs) = existsb normal cs.
Proof.
  induction cs as [|c cs IH]; simpl; [reflexivity|].
  destruct (normal c) eqn:N; simpl; rewrite ?N; simpl; [reflexivity | exact IH].
Qed.

Lemma records_only_normal E now peers st :
  records E now (map only_normal peers) st = records E now peers st.
Proof.
  revert st. induction peers as [|p peers IH]; intros st; [reflexivity|].
  cbn [map records]. cbn [only_normal p_channels].
  rewrite filter_eligible_normal.
  change (addpeer now (only_normal p) st) with (addpeer now p st).
  change (chan_rec (addpeer now p st) (only_normal p))
    with (chan_rec (addpeer now p st) p).
  rewrite IH. reflexivity.
Qed.

Lemma gossipers_only_normal peers :
  gossipers_of (map only_normal peers) = gossipers_of peers.
Proof.
  unfold gossipers_of. induction peers as [|p peers IH]; [reflexivity|].
  cbn [map fold_right]. rewrite IH. f_equal.
  unfold gossip. cbn [only_normal p_channels p_connected].
  rewrite existsb_filter_normal. reflexivity.
Qed.

Lemma fold_addpeer_only_normal now peers st :
  fold_left (fun st p => addpeer now p st) (map only_normal peers) st
  = fold_left (fun st p => addpeer now p st) peers st.
Proof.
  revert st. induction peers as [|p peers IH]; intros st; [reflexivity|].
  cbn [map fold_left]. rewrite IH. reflexivity.
Qed.

Lemma fold_addpeer_keeps now peers st pid e :
  st !! pid = Some e ->
  fold_left (fun st p => addpeer now p st) peers st !! pid = Some e.
Proof.
  revert st. induction peers as [|p peers IH]; intros st He; [exact He|].
  cbn [fold_left]. apply IH. unfold addpeer.
  destruct (st !! p_id p) eqn:Ep; [exact He|].
  rewrite lookup_insert_ne; [exact He|]. intros Heq. rewrite Heq in Ep. congruence.
Qed.

Lemma fold_addpeer_notin now peers st pid :
  ~ In pid (map p_id peers) ->
  fold_left (fun st p => addpeer now p st) peers st !! pid = st !! pid.
Proof.
  revert st. induction peers as [|p peers IH]; intros st Hn; [reflexivity|].
  cbn [fold_left]. simpl in Hn. rewrite IH by tauto.
  apply addpeer_lookup_ne. intros ->. tauto.
Qed.

Lemma fold_addpeer_seed now peers st pid e :
  st !! pid = None ->
  fold_left (fun st p => addpeer now p st) peers st !! pid = Some e ->
  availability e = 1%Q \/ availability e = 0%Q.
Proof.
  revert st. induction peers as [|p peers IH]; intros st Hn; cbn [fold_left].
  - rewrite Hn. discriminate.
  - destruct (decide (pid = p_id p)) as [->|Hne].
    + destruct (addpeer_lookup_eq now p st) as (e0 & He0 & Ha).
      rewrite (fold_addpeer_keeps now peers _ _ _ He0). intros [= <-].
      rewrite Ha. unfold prior. rewrite Hn. destruct (p_connected p); auto.
    + apply IH. rewrite addpeer_lookup_ne by exact Hne. exact Hn.
Qed.

Lemma lookup_middle {A} (l1 : list A) x l2 i :
  i = length l1 -> (l1 ++ [x] ++ l2) !! i = Some x.
Proof. intros ->. apply list_lookup_middle. reflexivity. Qed.

Lemma length_of_string s : length (of_string s) = String.length s.
Proof.
  unfold of_string. rewrite length_map.
  induction s as [|a s IH]; simpl; [reflexivity | rewrite IH; reflexivity].
Qed.

Section WithLibExtras.
Context `{Lib}.
Variable draw : Charset.
Variable listnodes : string -> list (option pystr).

Lemma append_header_line table m tbl :
  append_header draw table m = Ok tbl ->
  exists short,
    msat_to_approx_str m 3 = Ok short
    /\ tbl = table ++ [header_line draw (str_of short)].
Proof.
  unfold append_header. intros E.
  apply res_bind_inv in E. destruct E as (v & Hv & E).
  assert (v = m) as ->.
  { unfold Millisatoshi in Hv. destruct (m <? 0); [discriminate | congruence]. }
  apply res_bind_inv in E. destruct E as (short & Hshort & E).
  exists short. split; [exact Hshort|].
  assert (Hh : Ok (table ++ [header_line draw (str_of short)]) = Ok tbl)
    by exact E.
  congruence.
Qed.

Lemma channel_line_scid biggest c line :
  channel_line draw listnodes biggest c = Ok line ->
  exists our their rest,
    bar_length (ch_to_us c) biggest = Ok our
    /\ bar_length (ch_to_them c) biggest = Ok their
    /\ line = fst (fst (line_graph draw our their))
              ++ [snd (fst (line_graph draw our their))]
              ++ snd (line_graph draw our their)
              ++ [space] ++ ljust 14 (of_string (ch_scid c)) ++ [space] ++ rest.
Proof.
  unfold channel_line. intros E.
  apply res_bind_inv in E. destruct E as (our & Ho & E).
  apply res_bind_inv in E. destruct E as (their & Ht & E).
  exists our, their.
  destruct (line_graph draw our their) as [[l m] r].
  eexists. split; [exact Ho|]. split; [exact Ht|].
  cbn [fst snd].
  assert (Hinj : forall x y : pystr, Ok x = Ok y -> y = x)
    by (intros x y [= ->]; reflexivity).
  apply Hinj. etransitivity; [|exact E]. f_equal.
  cbv beta iota zeta. rewrite <- !app_assoc. reflexivity.
Qed.

(** Property X8.  A report has no table exactly when [num_channels] is 0.
    A table is the newline entry, the header for the largest amount of the
    tuples, and one line per tuple in the order of the tuples.  The line of
    a tuple is the graph of its two bar lengths on that scale, both between
    0 and 23, so that the left and the right segment take 23 columns each;
    then come a space and the scid of the tuple padded to 14 columns. *)
Theorem table_layout now funds peers E st r st' :
  summary draw listnodes now funds peers E st = Ok (r, st') ->
  (r_channels r = None <-> r_num_channels r = 0)
  /\ forall tbl, r_channels r = Some tbl ->
       exists recs biggest short lines,
         records E now peers st = Ok recs
         /\ Forall (fun c => 0 <= ch_to_us c <= biggest
                             /\ 0 <= ch_to_them c <= biggest) recs
         /\ Exists (fun c => biggest = Z.max (ch_to_us c) (ch_to_them c)) recs
         /\ msat_to_approx_str biggest 3 = Ok short
         /\ tbl = [[10%N]; header_line draw (str_of short)] ++ lines
         /\ Z.of_nat (length lines) = r_num_channels r
         /\ Forall2 (fun c line =>
              exists our their rest,
                bar_length (ch_to_us c) biggest = Ok our
                /\ bar_length (ch_to_them c) biggest = Ok their
                /\ 0 <= our <= 23 /\ 0 <= their <= 23
                /\ line = fst (fst (line_graph draw our their))
                          ++ [snd (fst (line_graph draw our their))]
                          ++ snd (line_graph draw our their)
                          ++ [space] ++ ljust 14 (of_string (ch_scid c))
                          ++ [space] ++ rest
                /\ length (fst (fst (line_graph draw our their))) = 23%nat
                /\ length (snd (line_graph draw our their)) = 23%nat)
              recs lines.
Proof.
  rewrite summary_closed. intros Hs.
  apply res_bind_inv in Hs. destruct Hs as (u & _ & Hs).
  apply res_bind_inv in Hs. destruct Hs as (recs & Hr & Hs).
  apply res_bind_inv in Hs. destruct Hs as (ch & Hch & Hs).
  injection Hs as <- _. cbn [r_channels r_num_channels].
  assert (Hpos : Forall (fun r => 0 <= ch_to_us r /\ 0 <= ch_to_them r) recs).
  { eapply records_Forall; [|exact Hr]. intros st0 p c r0 Hc.
    apply chan_rec_fields in Hc. tauto. }
  destruct recs as [|c cs].
  - injection Hch as <-. split; [tauto|]. discriminate.
  - unfold render in Hch.
    apply res_bind_inv in Hch. destruct Hch as (table & Htab & Hch).
    apply res_bind_inv in Hch. destruct Hch as (lines & Hlines & Hch).
    injection Hch as <-.
    split; [split; [discriminate | simpl; lia]|].
    intros tbl [= <-].
    destruct (append_header_line _ _ _ Htab) as (short & Hshort & ->).
    rewrite List.Forall_forall in Hpos.
    exists (c :: cs), (biggest_of c cs), short, lines.
    split; [exact Hr|]. split; [|split; [|split; [|split; [|split]]]].
    + apply List.Forall_forall. intros x Hin.
      destruct (Hpos x Hin) as [P1 P2].
      destruct (biggest_of_ge c cs x Hin) as [G1 G2]. lia.
    + apply biggest_of_attained.
    + exact Hshort.
    + reflexivity.
    + f_equal. exact (mapM_length _ _ _ Hlines).
    + eapply mapM_Forall2_in; [|exact Hlines]. intros x line Hin Hx.
      destruct (Hpos x Hin) as [P1 P2].
      destruct (biggest_of_ge c cs x Hin) as [G1 G2].
      destruct (channel_line_scid _ _ _ Hx) as (our & their & rest & Ho & Hth & ->).
      assert (Bo : 0 <= our <= 23) by (eapply bar_length_in_range; [|exact Ho]; lia).
      assert (Bt : 0 <= their <= 23) by (eapply bar_length_in_range; [|exact Hth]; lia).
      destruct (line_graph_width draw our their Bo Bt) as [L1 L2].
      exists our, their, rest. repeat split; try assumption; lia.
Qed.

Lemma sum_max_nonneg (f : Channel -> Z) l :
  (forall c, 0 <= f c) -> 0 <= fold_right Z.add 0 (map f l).
Proof.
  intros Hf. induction l as [|c l IH]; simpl; [lia | specialize (Hf c); lia].
Qed.

(** Property X7.  In a report [avail_out] is the sum over the channels in
    the normal state and not excluded of [to_us_msat - our_reserve_msat],
    and [avail_in] that of [total_msat - to_us_msat - their_reserve_msat],
    each floored at zero; [num_channels] is the number of these channels
    and [num_gossipers] the number of connected peers without a channel in
    the normal state. *)
Theorem report_totals now funds peers E st r st' :
  summary draw listnodes now funds peers E st = Ok (r, st') ->
  r_avail_out r
    = fold_right Z.add 0 (map owned_available (eligible_channels E peers))
  /\ r_avail_in r
     = fold_right Z.add 0 (map counterparty_available (eligible_channels E peers))
  /\ r_num_channels r = Z.of_nat (length (eligible_channels E peers))
  /\ r_num_gossipers r = gossipers_of peers
  /\ 0 <= r_avail_out r /\ 0 <= r_avail_in r.
Proof.
  rewrite summary_closed. intros Hs.
  apply res_bind_inv in Hs. destruct Hs as (u & _ & Hs).
  apply res_bind_inv in Hs. destruct Hs as (recs & Hr & Hs).
  apply res_bind_inv in Hs. destruct Hs as (ch & _ & Hs).
  injection Hs as <- _.
  cbn [r_avail_out r_avail_in r_num_channels r_num_gossipers].
  destruct (records_outcome E now peers st) as [(_ & recs' & Hr' & H1 & H2)|(_ & Hr')];
    [|rewrite Hr in Hr'; discriminate].
  rewrite Hr in Hr'. injection Hr' as <-.
  unfold sum_of. rewrite H1, H2.
  repeat split; try reflexivity.
  - rewrite <- (length_map ch_to_us recs), H1, length_map. reflexivity.
  - apply sum_max_nonneg. intros c. unfold owned_available. lia.
  - apply sum_max_nonneg. intros c. unfold counterparty_available. lia.
Qed.


(** Property X11.  Channels that are not in state CHANNELD_NORMAL have no
    influence on the report, its errors and the dict included: dropping
    them from the answer of the daemon changes nothing. *)
Theorem other_states_ignored now funds peers E st :
  summary draw listnodes now funds (map only_normal peers) E st
  = summary draw listnodes now funds peers E st.
Proof.
  rewrite !summary_closed, records_only_normal, gossipers_only_normal,
    fold_addpeer_only_normal. reflexivity.
Qed.

(** Property X12.  Outputs whose status is not "confirmed" have no
    influence on the report: dropping them from [listfunds] changes
    nothing. *)
Theorem unconfirmed_outputs_ignored now funds peers E st :
  summary draw listnodes now (List.filter confirmed funds) peers E st
  = summary draw listnodes now funds peers E st.
Proof.
  unfold summary. fold confirmed. rewrite filter_idem. reflexivity.
Qed.

(** Property X13.  A report request never changes an entry of the dict: it
    leaves the existing ones as they are, adds an entry with the seed 1.0 or
    0.0 for peers it is given that had none, and leaves every peer it is
    given with an entry. *)
Theorem report_only_adds_seeds now funds peers E st r st' :
  summary draw listnodes now funds peers E st = Ok (r, st') ->
  (forall pid e, st !! pid = Some e -> st' !! pid = Some e)
  /\ (forall pid e, st !! pid = None -> st' !! pid = Some e ->
        In pid (map p_id peers)
        /\ (availability e = 1%Q \/ availability e = 0%Q))
  /\ (forall p, In p peers -> is_Some (st' !! p_id p)).
Proof.
  rewrite summary_closed. intros Hs.
  apply res_bind_inv in Hs. destruct Hs as (u & _ & Hs).
  apply res_bind_inv in Hs. destruct Hs as (recs & _ & Hs).
  apply res_bind_inv in Hs. destruct Hs as (ch & _ & Hs).
  injection Hs as _ <-. split; [|split].
  - intros pid e. apply fold_addpeer_keeps.
  - intros pid e Hn He. split.
    + destruct (in_dec string_dec pid (map p_id peers)) as [Hin|Hnin]; [exact Hin|].
      rewrite fold_addpeer_notin in He by exact Hnin. congruence.
    + eapply fold_addpeer_seed; eassumption.
  - intros p Hin. apply (fold_is_Some (addpeer now)).
    + intros. apply addpeer_is_Some. assumption.
    + right. apply in_map, Hin.
Qed.

(** Property X10.  [append_header] appends one line to the table.  When the
    scale hint has at most 12 characters the left cap, the midpoint and the
    right cap of that line are in columns 0, 23 and 46, those of a graph
    with two full bars. *)
Theorem header_alignment table m tbl :
  append_header draw table m = Ok tbl ->
  exists short,
    msat_to_approx_str m 3 = Ok short
    /\ tbl = table ++ [header_line draw (str_of short)]
    /\ ((length (str_of short) <= 12)%nat ->
        header_line draw (str_of short) !! 0%nat = Some (left draw)
        /\ header_line draw (str_of short) !! 23%nat = Some (mid draw)
        /\ header_line draw (str_of short) !! 46%nat = Some (right draw)).
Proof.
  unfold append_header. intros E.
  apply res_bind_inv in E. destruct E as (v & Hv & E).
  assert (v = m) as ->.
  { unfold Millisatoshi in Hv. destruct (m <? 0); [discriminate | congruence]. }
  apply res_bind_inv in E. destruct E as (short & Hshort & E).
  exists short. split; [exact Hshort|].
  split.
  { assert (Hh : Ok (table ++ [header_line draw (str_of short)]) = Ok tbl)
      by exact E.
    congruence. }
  intros Hlen. unfold header_line. split; [reflexivity|]. split.
  - rewrite (app_assoc [left draw]), (app_assoc _ (of_string "OUT/OURS ")).
    apply lookup_middle.
    rewrite !length_app, length_ljust, length_of_string by lia. reflexivity.
  - rewrite (app_assoc [left draw]), (app_assoc _ (of_string "OUT/OURS ")),
      (app_assoc _ [mid draw]), (app_assoc _ (of_string " IN/THEIRS")),
      (app_assoc _ (rjust 12 (str_of short))).
    apply lookup_middle.
    rewrite !length_app, length_ljust, length_rjust, !length_of_string by lia.
    reflexivity.
Qed.

End WithLibExtras.
End ReportExtras.

(* ===================================================================== *)
(** * The exclusion argument as a str *)
(* ===================================================================== *)

Section ExclusionFacts.
Context `{Lib}.
Variable draw : Charset.
Variable listnodes : string -> list (option pystr).

Lemma eligible_channels_str s peers :
  eligible_channels (ExcludeStr s) peers = kept_channels s peers.
Proof.
  unfold eligible_channels, kept_channels, normal_channels.
  induction peers as [|p peers IH]; cbn [flat_map]; [reflexivity|].
  rewrite List.filter_app, <- IH, <- filter_andb. reflexivity.
Qed.

Lemma contains_empty scid : contains scid "" = true <-> scid = ""%string.
Proof.
  destruct scid; simpl; split; intros E; try reflexivity; discriminate E.
Qed.

Lemma kept_channels_default peers :
  Forall (fun c => c_short_channel_id c <> ""%string) (normal_channels peers) ->
  kept_channels "" peers = normal_channels peers.
Proof.
  unfold kept_channels. induction 1 as [|c l Hc _ IH]; cbn [List.filter];
    [reflexivity|].
  rewrite IH. destruct (contains (c_short_channel_id c) "") eqn:E; [|reflexivity].
  apply contains_empty in E. contradiction.
Qed.

(** Claim C10.  The exclusion test of the report is substring membership
    when [exclude] is a str.  The test holds exactly when the scid occurs
    somewhere inside the string, as "1x1x1" does in "21x1x10".  The loop
    skips a channel in the normal state when its scid occurs in the string
    and counts it when it does not, so that [num_channels], [avail_out] and
    [avail_in] of a report are those of the channels in the normal state
    whose scid does not occur in the string.  With the default [''] these
    are all the channels in the normal state: no scid of the daemon is
    empty, and the empty str is the only one that occurs in ['']. *)
Theorem exclusion_is_substring :
  (forall scid, scid <> ""%string -> is_excluded scid (ExcludeStr "") = false)
  /\ (forall scid s,
        is_excluded scid (ExcludeStr s) = true <->
        exists pre post, s = (pre ++ scid ++ post)%string)
  /\ (forall st p c a t s pre post,
        normal c = true ->
        s = (pre ++ c_short_channel_id c ++ post)%string ->
        channel_step (ExcludeStr s) st p c (a, t) = Ok (true, t))
  /\ (forall st p c a t s,
        normal c = true ->
        (forall pre post, s <> (pre ++ c_short_channel_id c ++ post)%string) ->
        channel_step (ExcludeStr s) st p c (a, t)
        = (r ← chan_rec st p c; Ok (true, push t r)))
  /\ (forall c, normal c = true -> c_short_channel_id c <> ""%string ->
        eligible (ExcludeStr "") c = true)
  /\ (forall now funds peers s st r st',
        summary draw listnodes now funds peers (ExcludeStr s) st = Ok (r, st') ->
        r_num_channels r = Z.of_nat (length (kept_channels s peers))
        /\ r_avail_out r
           = fold_right Z.add 0 (map owned_available (kept_channels s peers))
        /\ r_avail_in r
           = fold_right Z.add 0 (map counterparty_available (kept_channels s peers)))
  /\ (forall now funds peers st r st',
        summary draw listnodes now funds peers (ExcludeStr "") st = Ok (r, st') ->
        Forall (fun c => c_short_channel_id c <> ""%string) (normal_channels peers) ->
        r_num_channels r = Z.of_nat (length (normal_channels peers))
        /\ r_avail_out r
           = fold_right Z.add 0 (map owned_available (normal_channels peers))
        /\ r_avail_in r
           = fold_right Z.add 0 (map counterparty_available (normal_channels peers)))
  /\ is_excluded "1x1x1" (ExcludeStr "21x1x10") = true.
Proof.
  assert (H0 : forall scid, scid <> ""%string -> is_excluded scid (ExcludeStr "") = false).
  { intros scid Hne. destruct scid; [congruence | reflexivity]. }
  assert (HR : forall now funds peers s st r st',
        summary draw listnodes now funds peers (ExcludeStr s) st = Ok (r, st') ->
        r_num_channels r = Z.of_nat (length (kept_channels s peers))
        /\ r_avail_out r
           = fold_right Z.add 0 (map owned_available (kept_channels s peers))
        /\ r_avail_in r
           = fold_right Z.add 0 (map counterparty_available (kept_channels s peers))).
  { intros now funds peers s st r st'. rewrite summary_closed. intros Hs.
    apply res_bind_inv in Hs. destruct Hs as (u & _ & Hs).
    apply res_bind_inv in Hs. destruct Hs as (recs & Hr & Hs).
    apply res_bind_inv in Hs. destruct Hs as (ch & _ & Hs).
    injection Hs as <- _. cbn [r_avail_out r_avail_in r_num_channels].
    destruct (records_outcome (ExcludeStr s) now peers st)
      as [(_ & recs' & Hr' & H1 & H2)|(_ & Hr')];
      [|rewrite Hr in Hr'; discriminate].
    rewrite Hr in Hr'. injection Hr' as <-.
    rewrite eligible_channels_str in H1, H2.
    unfold sum_of. rewrite H1, H2. repeat split.
    rewrite <- (length_map ch_to_us recs), H1, length_map. reflexivity. }
  split; [exact H0|]. split; [intros; apply contains_iff|].
  split; [|split; [|split; [|split; [exact HR|split; [|reflexivity]]]]].
  - intros st p c a t s pre post Hn ->. apply channel_step_excluded; [exact Hn|].
    apply contains_iff. eauto.
  - intros st p c a t s Hn Hs. apply channel_step_eligible.
    unfold eligible. fold (normal c). rewrite Hn. cbn [andb is_excluded].
    destruct (contains (c_short_channel_id c) s) eqn:E; [|reflexivity].
    apply contains_iff in E. destruct E as (pre & post & E).
    destruct (Hs pre post E).
  - intros c Hn Hs. unfold eligible. fold (normal c). rewrite Hn, H0 by exact Hs.
    reflexivity.
  - intros now funds peers st r st' Hs Hne.
    rewrite <- (kept_channels_default peers Hne). eapply HR, Hs.
Qed.

End ExclusionFacts.

Lemma exclusion_is_substring_witness :
  exists r st',
    summary (H := cpython) draw_utf8 (fun _ => []) 0 [] [peer_two_channels]
      (ExcludeStr "21x1x10") ∅ = Ok (r, st')
    /\ r_num_channels r
       = Z.of_nat (length (kept_channels "21x1x10" [peer_two_channels]))
    /\ kept_channels "21x1x10" [peer_two_channels] = [chan_2]
    /\ kept_channels "" [peer_two_channels] = [chan_1; chan_2].
Proof.
  destruct (summary (H := cpython) draw_utf8 (fun _ => []) 0 []
              [peer_two_channels] (ExcludeStr "21x1x10") ∅) as [[r st']| |] eqn:E.
  - exists r, st'. split; [reflexivity|].
    split; [|split; reflexivity].
    destruct (exclusion_is_substring (H := cpython) draw_utf8 (fun _ => []))
      as (_ & _ & _ & _ & _ & HR & _).
    exact (proj1 (HR 0 [] [peer_two_channels] "21x1x10"%string ∅ r st' E)).
  - vm_compute in E. discriminate E.
  - vm_compute in E. discriminate E.
Defined.


(* ===================================================================== *)
(** * Start-up and more about the formatter *)
(* ===================================================================== *)

Section InitFacts.

Lemma best_address_from b l :
  fold_left (fun best a =>
               match best with
               | None => Some a
               | Some b => if is_ipv4 a && negb (is_ipv4 b) then Some a else best
               end) l (Some b)
  = if is_ipv4 b then Some b
    else match List.find is_ipv4 l with Some a => Some a | None => Some b end.
Proof.
  revert b. induction l as [|a l IH]; intros b; simpl.
  - destruct (is_ipv4 b); reflexivity.
  - destruct (is_ipv4 b) eqn:Eb.
    + rewrite andb_false_r, IH, Eb. reflexivity.
    + rewrite andb_true_r. destruct (is_ipv4 a) eqn:Ea.
      * rewrite IH, Ea. reflexivity.
      * rewrite IH, Eb. reflexivity.
Qed.

(** Property X17.  [init] advertises the first address of type ipv4 when
    there is one and the first address otherwise; there is no advertised
    address exactly when the daemon announces none. *)
Theorem best_address_prefers_ipv4 (id : string) (addresses : list Address) :
  best_address addresses
  = match List.find is_ipv4 addresses with
    | Some a => Some a
    | None => head addresses
    end
  /\ (best_address addresses = None <-> addresses = [])
  /\ (my_address id addresses = None <-> addresses = []).
Proof.
  assert (E : best_address addresses
              = match List.find is_ipv4 addresses with
                | Some a => Some a
                | None => head addresses
                end).
  { unfold best_address. destruct addresses as [|b l]; [reflexivity|].
    cbn [fold_left List.find head]. rewrite best_address_from.
    destruct (is_ipv4 b); [reflexivity|]. destruct (List.find is_ipv4 l); reflexivity. }
  assert (N : best_address addresses = None <-> addresses = []).
  { rewrite E. destruct addresses as [|b l]; [tauto|]. cbn [List.find head].
    destruct (is_ipv4 b); [split; discriminate|].
    destruct (List.find is_ipv4 l); split; discriminate. }
  split; [exact E|]. split; [exact N|].
  unfold my_address. rewrite <- N. destruct (best_address addresses); [|tauto].
  split; discriminate.
Qed.

End InitFacts.

Section FormatterExtras.
Context `{Lib}.

Lemma min_by_len_bound l :
  forall best,
    (String.length (min_by_len best l) <= String.length best)%nat
    /\ forall s, In s l ->
         (String.length (min_by_len best l) <= String.length s)%nat.
Proof.
  induction l as [|x l IH]; intros best; simpl.
  - split; [lia | contradiction].
  - destruct (Nat.ltb_spec (String.length x) (String.length best)) as [Hlt|Hge].
    + destruct (IH x) as [H1 H2]. split; [lia|].
      intros s [Hs|Hs]; [subst s; exact H1 | apply H2, Hs].
    + destruct (IH best) as [H1 H2]. split; [exact H1|].
      intros s [Hs|Hs]; [subst s; lia | apply H2, Hs].
Qed.

Lemma min_by_len_le best l s :
  In s (best :: l) -> (String.length (min_by_len best l) <= String.length s)%nat.
Proof.
  destruct (min_by_len_bound l best) as [H1 H2].
  intros [Hs|Hs]; [subst s; exact H1 | apply H2, Hs].
Qed.

(** Property X14.  The candidate of an iteration is one of the three
    renderings (btc, sat, msat) of the rounded amount, and none of the
    three is shorter. *)
Theorem test_result_shortest (a : Z) :
  In (test_result a) (amounts_str a)
  /\ forall s, In s (amounts_str a) ->
       (String.length (test_result a) <= String.length s)%nat.
Proof.
  unfold test_result. 
  destruct (amounts_str a) as [|s0 l] eqn:E; [discriminate E|].
  split.
  - destruct (min_by_len_in s0 l) as [-> | Hin]; [left; reflexivity | right; exact Hin].
  - intros s Hs. apply min_by_len_le, Hs.
Qed.

(** What a terminated loop returns. *)
Lemma loop_result msat fuel :
  forall digits result s,
    msat_to_approx_str_loop fuel msat digits result = Ok (Some s) ->
    (result = Some s \/
     exists d a, digits <= d /\ round_to_n msat d = Ok a /\ s = test_result a)
    /\ (forall r, result = Some r -> r <> ""%string ->
          (String.length s <= String.length r)%nat)
    /\ (falsy result = true -> forall a0, round_to_n msat digits = Ok a0 ->
          (String.length s <= String.length (test_result a0))%nat).
Proof.
  induction fuel as [|fuel IH]; intros digits result s; [discriminate|].
  rewrite loop_unfold. intros E.
  apply res_bind_inv in E. destruct E as (a & Ha & E).
  case_bool_decide as Et.
  - assert (Er : result = Some s) by congruence.
    assert (Es : test_result a = s) by congruence.
    split; [left; exact Er|]. split.
    + intros r Hr _. assert (r = s) by congruence. subst r. lia.
    + intros F. rewrite Er in F. simpl in F. apply bool_decide_eq_true in F.
      rewrite <- Es in F. destruct (test_result_nonempty a F).
  - destruct (falsy result || len_le (test_result a) result) eqn:C.
    + destruct (IH _ _ _ E) as (H1 & H2 & _).
      specialize (H2 _ eq_refl (test_result_nonempty a)).
      split; [|split].
      * right. destruct H1 as [H1|(d & a' & Hd & Ha' & Hs)].
        -- exists digits, a. split; [lia|]. split; [exact Ha | congruence].
        -- exists d, a'. split; [lia|]. split; [exact Ha' | exact Hs].
      * intros r Hr Hne. rewrite Hr in C. apply orb_true_iff in C.
        destruct C as [F|L].
        -- simpl in F. apply bool_decide_eq_true in F. contradiction.
        -- simpl in L. apply Nat.leb_le in L. lia.
      * intros _ a0 Ha0. assert (a0 = a) by congruence. subst a0. exact H2.
    + assert (Er : result = Some s) by congruence.
      apply orb_false_iff in C. destruct C as [F _].
      split; [left; exact Er|]. split.
      * intros r Hr _. assert (r = s) by congruence. subst r. lia.
      * congruence.
Qed.

(** Property X15.  What [msat_to_approx_str] returns is the candidate of
    some iteration, at the initial or a higher number of digits, and is not
    longer than the candidate at the initial number of digits. *)
Theorem msat_to_approx_str_result (msat digits : Z) (s : string) :
  msat_to_approx_str msat digits = Ok (Some s) ->
  (exists d a, digits <= d /\ round_to_n msat d = Ok a /\ s = test_result a)
  /\ (forall a0, round_to_n msat digits = Ok a0 ->
        (String.length s <= String.length (test_result a0))%nat).
Proof.
  unfold msat_to_approx_str. intros E.
  destruct (loop_result _ _ _ _ _ E) as (H1 & _ & H3).
  split.
  - destruct H1 as [H1|H1]; [discriminate | exact H1].
  - apply H3. reflexivity.
Qed.

(** Property X16.  For a positive amount [round_to_n] returns a
    non-negative multiple of the unit of the last digit kept, at most half
    a unit away from the amount. *)
Theorem round_to_n_nearest (x n : Z) :
  0 < x ->
  exists r, round_to_n x n = Ok r
            /\ r mod last_digit_unit x n = 0
            /\ 2 * Z.abs (r - x) <= last_digit_unit x n
            /\ 0 <= r.
Proof.
  intros Hx. unfold round_to_n. destruct (Z.leb_spec x 0); [lia|].
  eexists. split; [reflexivity|]. unfold last_digit_unit, round_int.
  destruct (Z.leb_spec 0 (- log10_floor x + (n - 1))) as [Hn|Hn].
  - replace (Z.max 0 (log10_floor x + 1 - n)) with 0 by lia.
    change (10 ^ 0) with 1. rewrite Z.mod_1_r. lia.
  - replace (Z.max 0 (log10_floor x + 1 - n)) with (- (- log10_floor x + (n - 1))) by lia.
    set (p := 10 ^ (- (- log10_floor x + (n - 1)))).
    assert (Hp : 0 < p) by (apply Z.pow_pos_nonneg; lia).
    pose proof (Z.mod_pos_bound x p Hp) as Hr.
    pose proof (Z.div_mod x p ltac:(lia)) as Hd.
    assert (Hq : 0 <= x / p) by (apply Z.div_pos; lia).
    assert (M1 : (x - x mod p) mod p = 0).
    { replace (x - x mod p) with (x / p * p) by lia. apply Z.mod_mul. lia. }
    assert (M2 : (x - x mod p + p) mod p = 0).
    { replace (x - x mod p + p) with ((x / p + 1) * p) by lia. apply Z.mod_mul. lia. }
    assert (P1 : 0 <= x - x mod p) by nia.
    destruct (Z.compare_spec (2 * (x mod p)) p) as [Hc|Hc|Hc];
      [destruct (Z.even (x / p))|..]; repeat split; try assumption; lia.
Qed.

End FormatterExtras.

(* ===================================================================== *)
(** * The further properties at concrete inputs *)
(* ===================================================================== *)

Lemma tick_leaves_unlisted_alone_witness :
  peerstate (PeerThread_tick 0 (Some [peer_two_channels]) sampler_init) !! "03bb"
    = peerstate sampler_init !! "03bb"
  /\ count (PeerThread_tick 0 (Some [peer_two_channels]) sampler_init)
     = count sampler_init + 1.
Proof.
  apply (tick_leaves_unlisted_alone 0 (Some [peer_two_channels]) sampler_init
           "03bb").
  intros peers E. injection E as <-. simpl. intros [C|[]]. discriminate C.
Defined.

Lemma steady_peer_is_exact_witness :
  exists e,
    peerstate (process [ EvTick 0 (Some [peer_two_channels]);
                         EvSummary 100 [peer_two_channels];
                         EvTick 300 (Some [peer_two_channels]) ]
                       sampler_init) !! "02aa" = Some e
    /\ availability e = 1%Q.
Proof.
  destruct (peerstate (process [ EvTick 0 (Some [peer_two_channels]);
                                 EvSummary 100 [peer_two_channels];
                                 EvTick 300 (Some [peer_two_channels]) ]
                               sampler_init) !! "02aa") as [e|] eqn:E.
  - exists e. split; [reflexivity|].
    apply (steady_peer_is_exact
             [ EvTick 0 (Some [peer_two_channels]);
               EvSummary 100 [peer_two_channels];
               EvTick 300 (Some [peer_two_channels]) ] "02aa" true e);
      [|exact E].
    repeat (first [ intros _; reflexivity | constructor ]).
  - vm_compute in E. discriminate E.
Defined.

Lemma disconnected_sample_never_raises_witness :
  exists e,
    peerstate
      (PeerThread_tick 300
         (Some [ peer_reserved;
                 {| p_id := "02aa"; p_connected := false; p_channels := [] |} ])
         (process [EvTick 0 (Some [peer_two_channels])] sampler_init))
      !! "02aa" = Some e
    /\ (availability e
        <= prior {| p_id := "02aa"; p_connected := false; p_channels := [] |}
             (peerstate (process [EvTick 0 (Some [peer_two_channels])]
                                 sampler_init)))%Q.
Proof.
  apply (disconnected_sample_never_raises
           [EvTick 0 (Some [peer_two_channels])] 300
           [ peer_reserved;
             {| p_id := "02aa"; p_connected := false; p_channels := [] |} ]
           {| p_id := "02aa"; p_connected := false; p_channels := [] |}).
  - right. left. reflexivity.
  - repeat constructor; simpl; intros C; repeat destruct C as [C|C];
      try discriminate C; exact C.
  - reflexivity.
Defined.

Lemma alpha_never_grows_witness :
  (alpha 2 <= alpha 1)%Q /\ (beta 1 <= beta 2)%Q
  /\ (alpha 864 <= alpha 2)%Q /\ (alpha 1 <= 1)%Q.
Proof. apply (alpha_never_grows 1 2). lia. Defined.

Lemma bar_length_scale_witness :
  exists n n',
    bar_length 250 1000 = Ok n /\ bar_length 500 1000 = Ok n'
    /\ 0 <= n /\ n <= n' /\ n' <= 23
    /\ bar_length 0 1000 = Ok 0 /\ bar_length 1000 1000 = Ok 23.
Proof. apply (bar_length_scale 250 500 1000); lia. Defined.

Lemma table_layout_witness :
  exists r st',
    summary (H := cpython) draw_utf8 (fun _ => []) 0 []
      [peer_two_channels] (ExcludeStr "") ∅ = Ok (r, st')
    /\ (r_channels r = None <-> r_num_channels r = 0)
    /\ forall tbl, r_channels r = Some tbl ->
       exists recs biggest short lines,
         records (ExcludeStr "") 0 [peer_two_channels] ∅ = Ok recs
         /\ Forall (fun c => 0 <= ch_to_us c <= biggest
                             /\ 0 <= ch_to_them c <= biggest) recs
         /\ Exists (fun c => biggest = Z.max (ch_to_us c) (ch_to_them c)) recs
         /\ msat_to_approx_str (H := cpython) biggest 3 = Ok short
         /\ tbl = [[10%N]; header_line draw_utf8 (str_of short)] ++ lines
         /\ Z.of_nat (length lines) = r_num_channels r
         /\ Forall2 (fun c line =>
              exists our their rest,
                bar_length (ch_to_us c) biggest = Ok our
                /\ bar_length (ch_to_them c) biggest = Ok their
                /\ 0 <= our <= 23 /\ 0 <= their <= 23
                /\ line = fst (fst (line_graph draw_utf8 our their))
                          ++ [snd (fst (line_graph draw_utf8 our their))]
                          ++ snd (line_graph draw_utf8 our their)
                          ++ [space] ++ ljust 14 (of_string (ch_scid c))
                          ++ [space] ++ rest
                /\ length (fst (fst (line_graph draw_utf8 our their))) = 23%nat
                /\ length (snd (line_graph draw_utf8 our their)) = 23%nat)
              recs lines.
Proof.
  destruct (summary (H := cpython) draw_utf8 (fun _ => []) 0 []
              [peer_two_channels] (ExcludeStr "") ∅) as [[r st']| |] eqn:E.
  - exists r, st'. split; [reflexivity|].
    exact (table_layout (H := cpython) draw_utf8 (fun _ => []) 0 []
             [peer_two_channels] (ExcludeStr "") ∅ r st' E).
  - vm_compute in E. discriminate E.
  - vm_compute in E. discriminate E.
Defined.

Lemma report_totals_witness :
  exists r st',
    summary (H := cpython) draw_utf8 (fun _ => []) 0 []
      [peer_two_channels] (ExcludeStr "") ∅ = Ok (r, st')
    /\ r_avail_out r
       = fold_right Z.add 0
           (map owned_available
                (eligible_channels (ExcludeStr "") [peer_two_channels]))
    /\ r_avail_in r
       = fold_right Z.add 0
           (map counterparty_available
                (eligible_channels (ExcludeStr "") [peer_two_channels]))
    /\ r_num_channels r
       = Z.of_nat (length (eligible_channels (ExcludeStr "") [peer_two_channels]))
    /\ r_num_gossipers r = gossipers_of [peer_two_channels]
    /\ 0 <= r_avail_out r /\ 0 <= r_avail_in r.
Proof.
  destruct (summary (H := cpython) draw_utf8 (fun _ => []) 0 []
              [peer_two_channels] (ExcludeStr "") ∅) as [[r st']| |] eqn:E.
  - exists r, st'. split; [reflexivity|].
    exact (report_totals (H := cpython) draw_utf8 (fun _ => []) 0 []
             [peer_two_channels] (ExcludeStr "") ∅ r st' E).
  - vm_compute in E. discriminate E.
  - vm_compute in E. discriminate E.
Defined.

Lemma report_only_adds_seeds_witness :
  exists r st',
    summary (H := cpython) draw_utf8 (fun _ => []) 0 []
      [peer_two_channels] (ExcludeStr "") ∅ = Ok (r, st')
    /\ (forall pid e, (∅ : gmap string PeerState) !! pid = Some e ->
                      st' !! pid = Some e)
    /\ (forall pid e, (∅ : gmap string PeerState) !! pid = None ->
                      st' !! pid = Some e ->
                      In pid (map p_id [peer_two_channels])
                      /\ (availability e = 1%Q \/ availability e = 0%Q))
    /\ (forall p, In p [peer_two_channels] -> is_Some (st' !! p_id p)).
Proof.
  destruct (summary (H := cpython) draw_utf8 (fun _ => []) 0 []
              [peer_two_channels] (ExcludeStr "") ∅) as [[r st']| |] eqn:E.
  - exists r, st'. split; [reflexivity|].
    exact (report_only_adds_seeds (H := cpython) draw_utf8 (fun _ => []) 0 []
             [peer_two_channels] (ExcludeStr "") ∅ r st' E).
  - vm_compute in E. discriminate E.
  - vm_compute in E. discriminate E.
Defined.

Lemma header_alignment_witness :
  exists tbl short,
    append_header (H := cpython) draw_utf8 [[10%N]] 150000000000 = Ok tbl
    /\ msat_to_approx_str (H := cpython) 150000000000 3 = Ok short
    /\ tbl = [[10%N]] ++ [header_line draw_utf8 (str_of short)]
    /\ ((length (str_of short) <= 12)%nat ->
        header_line draw_utf8 (str_of short) !! 0%nat = Some (left draw_utf8)
        /\ header_line draw_utf8 (str_of short) !! 23%nat = Some (mid draw_utf8)
        /\ header_line draw_utf8 (str_of short) !! 46%nat
           = Some (right draw_utf8)).
Proof.
  destruct (append_header (H := cpython) draw_utf8 [[10%N]] 150000000000)
    as [tbl| |] eqn:E.
  - destruct (header_alignment (H := cpython) draw_utf8 [[10%N]] 150000000000
                tbl E) as (short & Hrest).
    exists tbl, short. split; [reflexivity | exact Hrest].
  - vm_compute in E. discriminate E.
  - vm_compute in E. discriminate E.
Defined.

Lemma msat_to_approx_str_result_witness :
  (exists d a, 3 <= d /\ round_to_n (H := cpython) 150000000000 d = Ok a
               /\ "1.5btc"%string = test_result (H := cpython) a)
  /\ (forall a0, round_to_n (H := cpython) 150000000000 3 = Ok a0 ->
        (String.length "1.5btc"
         <= String.length (test_result (H := cpython) a0))%nat).
Proof.
  apply (msat_to_approx_str_result (H := cpython) 150000000000 3 "1.5btc").
  vm_compute. reflexivity.
Defined.

Lemma round_to_n_nearest_witness :
  exists r, round_to_n (H := cpython) 123456789 3 = Ok r
            /\ r mod last_digit_unit (H := cpython) 123456789 3 = 0
            /\ 2 * Z.abs (r - 123456789) <= last_digit_unit (H := cpython) 123456789 3
            /\ 0 <= r.
Proof. apply (round_to_n_nearest (H := cpython) 123456789 3). lia. Defined.
